(** * Introduction to Data Science in Python: the notebooks' computations

    A shallow embedding of the cells of

    - [week1/IntroductionToCourse.ipynb]: tuple unpacking, string
      formatting of a sales record, grouped means over the rows of
      [mpg.csv], and the even numbers below 1000 written as a loop and as
      a list comprehension;
    - [week2/QueryingDataFrame_ed.ipynb]: Boolean masks over a data
      frame, [where], Boolean indexing and the [&] of two masks.

    The cells are straight-line Python over built-in and pandas
    operations, so the development first fixes the part of Python and
    pandas the cells run on (module [Py], module [Pandas]) and then
    transcribes the cells (modules [Week1], [Week2]).  Python floats are
    IEEE binary64: they are Rocq's primitive floats, and text is turned
    into floats and back with the Standard Library's [SpecFloat]
    rounding. *)

From Stdlib Require Import ZArith List Bool Lia Sorted Permutation.
From Stdlib Require Import Ascii String DecimalString.
From Stdlib Require Import PrimFloat FloatOps SpecFloat FloatAxioms.
From stdpp Require Import gmap strings list sorting.

Set Warnings "-inexact-float".
Local Open Scope Z_scope.

(** ** The Python the notebooks use *)

Module Py.

(** The built-in exceptions the cells can raise. *)
Inductive exn : Type :=
  | ValueError (msg : string)
  | TypeError (msg : string)
  | KeyError (key : string)
  | IndexError (msg : string)
  | ZeroDivisionError (msg : string)
  | OverflowError (msg : string).

(** A computation either returns or raises. *)
Inductive result (A : Type) : Type :=
  | Ok (a : A)
  | Raise (e : exn).
Global Arguments Ok {A} a.
Global Arguments Raise {A} e.

Global Instance result_ret : MRet result := fun A a => Ok a.
Global Instance result_bind : MBind result := fun A B f m =>
  match m with
  | Ok a => f a
  | Raise e => Raise e
  end.

Definition returns {A} (m : result A) : Prop := ∃ a, m = Ok a.

(** Statements run in sequence over a list: the first exception ends
    the loop. *)
Fixpoint for_each {A B} (f : A → result B) (l : list A) : result (list B) :=
  match l with
  | [] => Ok []
  | x :: l' => y ← f x; ys ← for_each f l'; Ok (y :: ys)
  end.

(** *** Text and numbers *)

Definition chars (s : string) : list ascii := list_ascii_of_string s.
Definition text (l : list ascii) : string := string_of_list_ascii l.

Definition digit_of (c : ascii) : option Z :=
  let n := Z.of_nat (nat_of_ascii c) in
  if (48 <=? n) && (n <=? 57) then Some (n - 48) else None.

(** [str(int)]. *)
Definition str_int (z : Z) : string := NilZero.string_of_int (Z.to_int z).

(** The value of a digit sequence, most significant digit first. *)
Definition digits_value (ds : list Z) : Z :=
  fold_left (fun acc d => 10 * acc + d) ds 0.

(** [digitpart ::= digit (["_"] digit)*]: the digits read and the rest. *)
Fixpoint digitpart (s : list ascii) : list Z * list ascii :=
  match s with
  | [] => ([], [])
  | c :: r =>
      match digit_of c with
      | None => ([], s)
      | Some d =>
          match r with
          | "_"%char :: (c' :: _) as r' =>
              match digit_of c' with
              | Some _ => let (ds, t) := digitpart r' in (d :: ds, t)
              | None => ([d], r)
              end
          | _ => let (ds, t) := digitpart r in (d :: ds, t)
          end
      end
  end.

(** The binary64 nearest to [n * 10^k] (ties to even), negated when
    [neg]: an integer is rounded by [binary_normalize], a proper fraction
    is the correctly rounded quotient [n / 10^(-k)]. *)
Definition float_of_decimal (neg : bool) (n : Z) (k : Z) : float :=
  SF2Prim
    match n with
    | Zpos _ =>
        if 0 <=? k
        then binary_normalize prec emax (if neg then - (n * 10 ^ k) else n * 10 ^ k) 0 neg
        else
          let '(q, e, l) := SFdiv_core_binary prec emax n 0 (10 ^ (- k)) 0 in
          binary_round_aux prec emax neg q e l
    | _ => S754_zero neg
    end.

(** [float(int)]: the nearest float, and an [OverflowError] for an
    integer that rounds beyond the largest float. *)
Definition float_of_int (z : Z) : result float :=
  if 2 ^ 1024 - 2 ^ 970 <=? Z.abs z
  then Raise (OverflowError "int too large to convert to float")
  else Ok (SF2Prim (binary_normalize prec emax z 0 false)).

(** White space for [str.strip]: the space, the controls 9 to 13 and
    the separators 28 to 31. *)
Definition is_space (c : ascii) : bool :=
  let n := nat_of_ascii c in
  ((9 <=? n) && (n <=? 13) || (n =? 32) || ((28 <=? n) && (n <=? 31)))%nat.

Fixpoint lstrip (s : list ascii) : list ascii :=
  match s with
  | c :: r => if is_space c then lstrip r else s
  | [] => []
  end.

Definition strip (s : list ascii) : list ascii := rev (lstrip (rev (lstrip s))).

(** White space for [float]: what C's [isspace] accepts, the space and
    the controls 9 to 13.  The separators 28 to 31, which [str.strip]
    drops, are not among them. *)
Definition is_float_space (c : ascii) : bool :=
  let n := nat_of_ascii c in
  ((9 <=? n) && (n <=? 13) || (n =? 32))%nat.

Fixpoint float_lstrip (s : list ascii) : list ascii :=
  match s with
  | c :: r => if is_float_space c then float_lstrip r else s
  | [] => []
  end.

Definition float_strip (s : list ascii) : list ascii :=
  rev (float_lstrip (rev (float_lstrip s))).

Definition lower (c : ascii) : ascii :=
  let n := nat_of_ascii c in
  if ((65 <=? n) && (n <=? 90))%nat then ascii_of_nat (n + 32) else c.

Definition sign_of (s : list ascii) : bool * list ascii :=
  match s with
  | "-"%char :: r => (true, r)
  | "+"%char :: r => (false, r)
  | _ => (false, s)
  end.

(** The exponent part [("e" | "E") ["+" | "-"] digitpart], when the rest
    of the text is one; [Some 0] on the empty rest. *)
Definition exponent_of (s : list ascii) : option Z :=
  match s with
  | [] => Some 0
  | c :: r =>
      if decide (lower c = "e"%char) then
        let (neg, r1) := sign_of r in
        match digitpart r1 with
        | ((_ :: _) as ds, []) => Some (if neg then - digits_value ds else digits_value ds)
        | _ => None
        end
      else None
  end.

(** The text of a float, sign removed: [inf], [infinity], [nan] in any
    case, or a decimal number with at least one digit around its
    point. *)
Definition unsigned_float (neg : bool) (s : list ascii) : option float :=
  let word := text (map lower s) in
  if decide (word = "inf"%string ∨ word = "infinity"%string)
  then Some (if neg then neg_infinity else infinity)
  else if decide (word = "nan"%string) then Some nan
  else
    let (ip, r1) := digitpart s in
    let (fp, r2) :=
      match r1 with
      | "."%char :: r => digitpart r
      | _ => ([], r1)
      end in
    match ip ++ fp with
    | [] => None
    | ds =>
        e ← exponent_of r2;
        Some (float_of_decimal neg (digits_value ds) (e - Z.of_nat (length fp)))
    end.

(** The double quote. *)
Definition dquote : ascii := ascii_of_nat 34.

(** [repr(str)] on ASCII text: between single quotes, or between double
    quotes when the text has a single quote and no double quote; the
    quote in use and the backslash are escaped, tab, newline and return
    are written [\t], [\n], [\r], and the other controls [\xhh]. *)
Definition hex_digit (n : nat) : ascii := nth n (chars "0123456789abcdef") "0"%char.

Definition repr_char (quote c : ascii) : list ascii :=
  let n := nat_of_ascii c in
  if bool_decide (c = quote) || bool_decide (c = "\"%char) then ["\"%char; c]
  else if (n =? 9)%nat then chars "\t"
  else if (n =? 10)%nat then chars "\n"
  else if (n =? 13)%nat then chars "\r"
  else if ((n <? 32) || (n =? 127))%nat
       then chars "\x" ++ [hex_digit (n / 16); hex_digit (n mod 16)]
  else [c].

Definition repr_str (s : string) : string :=
  let cs := chars s in
  let quote :=
    if bool_decide ("'"%char ∈ cs) && negb (bool_decide (dquote ∈ cs))
    then dquote else "'"%char in
  text (quote :: concat (map (repr_char quote) cs) ++ [quote]).


(** [float(str)] on ASCII text: surrounding white space is dropped, and
    text that is not a number raises [ValueError], with the [repr] of
    the text in its message.  Beyond ASCII Python also reads the digits
    and the white space of other scripts, which are not modelled. *)
Definition float_of_str (s : string) : result float :=
  let (neg, r) := sign_of (float_strip (chars s)) in
  match unsigned_float neg r with
  | Some f => Ok f
  | None => Raise (ValueError ("could not convert string to float: " +:+ repr_str s))
  end.

(** *** The syntax of a float

    The grammar that the documentation of [float] gives for its
    argument, case not significant:

      sign          ::= "+" | "-"
      infinity      ::= "Infinity" | "inf"
      nan           ::= "nan"
      digitpart     ::= digit (["_"] digit)*
      number        ::= [digitpart] "." digitpart | digitpart ["."]
      exponent      ::= ("e" | "E") [sign] digitpart
      floatnumber   ::= number [exponent]
      absfloatvalue ::= floatnumber | infinity | nan
      floatvalue    ::= [sign] absfloatvalue

    with white space allowed before and after. *)









(** *** [repr] of a float

    [repr(x)] is the shortest decimal text that [float] reads back as
    [x], the nearest to [x] among the shortest, written with a point when
    its exponent is moderate and in scientific notation otherwise. *)

Definition ndigits (z : Z) : Z := Z.of_nat (String.length (str_int z)).

(** For [0 < num/den]: the [p] with [10^(p-1) <= num/den < 10^p]. *)
Definition decimal_exponent (num den : Z) : Z :=
  if den <=? num then ndigits (num / den)
  else 1 - ndigits ((den + num - 1) / num - 1).

(** The [k]-digit decimals [c * 10^(p-k)] next to [num/den] that read
    back as [x]; of two, the nearer, and the even one on a tie. *)
Definition digits_at (x : float) (num den p : Z) (k : Z) : option Z :=
  let xn := if p <=? k then num * 10 ^ (k - p) else num in
  let xd := if p <=? k then den else den * 10 ^ (p - k) in
  let lo := xn / xd in
  let hi := lo + 1 in
  let back c := (float_of_decimal false c (p - k) =? x)%float in
  match back lo, back hi with
  | true, true =>
      match 2 * xn ?= (2 * lo + 1) * xd with
      | Lt => Some lo
      | Gt => Some hi
      | Eq => Some (if Z.even lo then lo else hi)
      end
  | true, false => Some lo
  | false, true => Some hi
  | false, false => None
  end.

(** The first length [k, k+1, ...] with such a decimal; 17 digits always
    suffice for a binary64. *)
Fixpoint shortest (x : float) (num den p : Z) (k : Z) (fuel : nat) : option (Z * Z) :=
  match fuel with
  | O => None
  | S fuel' =>
      match digits_at x num den p k with
      | Some c => Some (c, k)
      | None => shortest x num den p (k + 1) fuel'
      end
  end.

Fixpoint drop_zeros (rev_digits : list ascii) : list ascii :=
  match rev_digits with
  | "0"%char :: (_ :: _) as r => drop_zeros r
  | _ => rev_digits
  end.

(** The digits [d1 ... dn] and the position [decpt] of the point, so
    that the float [m * 2^e] is [0.d1...dn * 10^decpt]. *)
Definition float_digits (x : float) (m : positive) (e : Z) : list ascii * Z :=
  let num := if 0 <=? e then Z.pos m * 2 ^ e else Z.pos m in
  let den := if 0 <=? e then 1 else 2 ^ (- e) in
  let p := decimal_exponent num den in
  let (c, k) := default (0, 1) (shortest x num den p 1 17) in
  (rev (drop_zeros (rev (chars (str_int c)))), ndigits c + p - k).

Definition zeros (n : Z) : list ascii := repeat "0"%char (Z.to_nat n).

Definition fixed_notation (ds : list ascii) (decpt : Z) : list ascii :=
  let n := Z.of_nat (length ds) in
  if decpt <=? 0 then chars "0." ++ zeros (- decpt) ++ ds
  else if n <=? decpt then ds ++ zeros (decpt - n) ++ chars ".0"
  else take (Z.to_nat decpt) ds ++ "."%char :: drop (Z.to_nat decpt) ds.

Definition exponent_notation (ds : list ascii) (decpt : Z) : list ascii :=
  let e := decpt - 1 in
  let mantissa :=
    match ds with
    | d :: (_ :: _) as r => d :: "."%char :: r
    | _ => ds
    end in
  let digits := chars (str_int (Z.abs e)) in
  mantissa ++ "e"%char :: (if e <? 0 then "-"%char else "+"%char)
           :: (if Z.abs e <? 10 then "0"%char :: digits else digits).

Definition repr_float (x : float) : string :=
  match Prim2SF x with
  | S754_nan => "nan"
  | S754_infinity s => if s then "-inf" else "inf"
  | S754_zero s => if s then "-0.0" else "0.0"
  | S754_finite s m e =>
      let (ds, decpt) := float_digits (abs x) m e in
      text ((if s then ["-"%char] else []) ++
            if (decpt <=? -4) || (16 <? decpt)
            then exponent_notation ds decpt
            else fixed_notation ds decpt)
  end.

(** *** Values, [*], [str] and [str.format] *)

(** The objects that meet in the formatting cell. *)
Inductive obj : Type :=
  | Str (s : string)
  | Int (z : Z)
  | Float (x : float).

Definition str (v : obj) : string :=
  match v with
  | Str s => s
  | Int z => str_int z
  | Float x => repr_float x
  end.

Definition repeat_str (s : string) (n : Z) : string :=
  text (concat (repeat (chars s) (Z.to_nat n))).

(** [a * b]: an int meeting a float is converted first; text times an
    int is repetition. *)
Definition mul (a b : obj) : result obj :=
  match a, b with
  | Int x, Int y => Ok (Int (x * y))
  | Int x, Float y => x' ← float_of_int x; Ok (Float (x' * y)%float)
  | Float x, Int y => y' ← float_of_int y; Ok (Float (x * y')%float)
  | Float x, Float y => Ok (Float (x * y)%float)
  | Str s, Int n | Int n, Str s => Ok (Str (repeat_str s n))
  | Str _, Str _ => Raise (TypeError "can't multiply sequence by non-int of type 'str'")
  | Str _, Float _ | Float _, Str _ =>
      Raise (TypeError "can't multiply sequence by non-int of type 'float'")
  end.

(** [template.format(a, b, ...)] for templates whose replacement fields are
    all the automatic [{}]; doubled braces stand for themselves.  Named
    and numbered fields and format specifications occur in no cell and
    are [ValueError]s here. *)
Fixpoint format_from (t : list ascii) (args : list obj) (n : Z) : result (list ascii) :=
  match t with
  | [] => Ok []
  | "{"%char :: "}"%char :: t' =>
      match args with
      | v :: args' => r ← format_from t' args' (n + 1); Ok (chars (str v) ++ r)
      | [] =>
          Raise (IndexError ("Replacement index " +:+ str_int n +:+
                             " out of range for positional args tuple"))
      end
  | "{"%char :: "{"%char :: t' => r ← format_from t' args n; Ok ("{"%char :: r)
  | "}"%char :: "}"%char :: t' => r ← format_from t' args n; Ok ("}"%char :: r)
  | "{"%char :: _ => Raise (ValueError "unsupported replacement field")
  | "}"%char :: _ => Raise (ValueError "Single '}' encountered in format string")
  | c :: t' => r ← format_from t' args n; Ok (c :: r)
  end.

Definition format (template : string) (args : list obj) : result string :=
  r ← format_from (chars template) args 0; Ok (text r).

(** *** Sequences *)

(** [a, b, ... = x] with [n] targets: the values of [x], when there are
    exactly [n] of them. *)
Definition unpack {A} (n : nat) (x : list A) : result (list A) :=
  let got := length x in
  if (got <? n)%nat then
    Raise (ValueError ("not enough values to unpack (expected " +:+ str_int (Z.of_nat n) +:+
                       ", got " +:+ str_int (Z.of_nat got) +:+ ")"))
  else if (n <? got)%nat then
    Raise (ValueError ("too many values to unpack (expected " +:+ str_int (Z.of_nat n) +:+ ")"))
  else Ok x.

(** [range(start, stop)]. *)
Definition range (start stop : Z) : list Z := seqZ start (stop - start).

(** [sys.maxsize]: no list is longer. *)
Definition maxsize : Z := 2 ^ 63 - 1.

(** [l.sort(key=key)] sorts stably and compares keys with [<] alone.
    Where [<] orders the keys totally the outcome is the one stable
    sorted arrangement, which insertion from the right computes.  That
    is the case modelled: with a NaN among float keys [<] is no such
    order, what [list.sort] leaves then depends on the runs it merges,
    and every property below of a list sorted by float keys keeps NaN
    out by hypothesis. *)
Section Sort.
Context {A K : Type} (lt : K → K → bool) (key : A → K).

Fixpoint insert (x : A) (l : list A) : list A :=
  match l with
  | [] => [x]
  | y :: l' => if lt (key y) (key x) then y :: insert x l' else x :: l
  end.

Definition sort_by (l : list A) : list A := fold_right insert [] l.
End Sort.

(** A loop that threads a state through the items of a list. *)
Fixpoint for_fold {A S} (body : S → A → result S) (s : S) (l : list A) : result S :=
  match l with
  | [] => Ok s
  | x :: l' => s' ← body s x; for_fold body s' l'
  end.

(** A [dict] with text keys; [d[k]] raises [KeyError] on a missing key. *)
Definition getitem {V} (d : gmap string V) (k : string) : result V :=
  match d !! k with
  | Some v => Ok v
  | None => Raise (KeyError k)
  end.

(** The orders in which a [for] loop may meet the elements of a set:
    each element once, in an order the language does not fix. *)
Definition iterates (s : gset string) (order : list string) : Prop :=
  order ≡ₚ elements s.

(** *** Indexing and slicing a sequence *)

(** [x[i]]: a negative index counts from the end; an index outside
    [-len(x) .. len(x) - 1] raises [IndexError]. *)
Definition item {A} (kind : string) (x : list A) (i : Z) : result A :=
  let j := if i <? 0 then i + Z.of_nat (length x) else i in
  match (if 0 <=? j then x !! Z.to_nat j else None) with
  | Some a => Ok a
  | None => Raise (IndexError (kind +:+ " index out of range"))
  end.

(** A bound of a slice, clipped to the sequence; [dflt] stands for an
    omitted bound. *)
Definition clip (len : Z) (bound : option Z) (dflt : Z) : Z :=
  match bound with
  | None => dflt
  | Some i => if i <? 0 then Z.max 0 (i + len) else Z.min i len
  end.

(** [x[start:stop]], either bound possibly omitted. *)
Definition slice {A} (x : list A) (start stop : option Z) : list A :=
  let len := Z.of_nat (length x) in
  let lo := clip len start 0 in
  let hi := clip len stop len in
  take (Z.to_nat (hi - lo)) (drop (Z.to_nat lo) x).

(** The same on text: [s[i]] is the text of one character. *)
Definition str_item (s : string) (i : Z) : result string :=
  c ← item "string" (chars s) i; Ok (text [c]).

Definition str_slice (s : string) (start stop : option Z) : string :=
  text (slice (chars s) start stop).

(** *** [+] *)

Definition type_name (v : obj) : string :=
  match v with
  | Str _ => "str"
  | Int _ => "int"
  | Float _ => "float"
  end.

(** [a + b]: numbers add, an int meeting a float converted first; text
    concatenates with text and with nothing else. *)
Definition add (a b : obj) : result obj :=
  match a, b with
  | Int x, Int y => Ok (Int (x + y))
  | Int x, Float y => x' ← float_of_int x; Ok (Float (x' + y)%float)
  | Float x, Int y => y' ← float_of_int y; Ok (Float (x + y')%float)
  | Float x, Float y => Ok (Float (x + y)%float)
  | Str s, Str t => Ok (Str (s +:+ t))
  | Str _, _ =>
      Raise (TypeError ("can only concatenate str (not " +:+ String dquote (type_name b)
                        +:+ String dquote ") to str"))
  | _, Str _ =>
      Raise (TypeError ("unsupported operand type(s) for +: '" +:+ type_name a
                        +:+ "' and 'str'"))
  end.

(** *** [in], [split] and [join] on text *)

Fixpoint starts_with (p s : list ascii) : bool :=
  match p, s with
  | [], _ => true
  | c :: p', d :: s' => bool_decide (c = d) && starts_with p' s'
  | _ :: _, [] => false
  end.

(** [sub in s] *)
Fixpoint contains (sub s : list ascii) : bool :=
  starts_with sub s ||
  match s with
  | [] => false
  | _ :: s' => contains sub s'
  end.

(** The pieces of [s] between the occurrences of [sep], found from the
    left and not overlapping: [piece] holds, last character first, the
    piece being read, and [skip] the characters still to pass of an
    occurrence just found. *)
Fixpoint split_from (sep s : list ascii) (skip : nat) (piece : list ascii)
    : list (list ascii) :=
  match s with
  | [] => [rev piece]
  | c :: s' =>
      match skip with
      | S k => split_from sep s' k piece
      | O =>
          if starts_with sep s
          then rev piece :: split_from sep s' (length sep - 1) []
          else split_from sep s' 0 (c :: piece)
      end
  end.

(** [s.split(sep)] *)
Definition split (s sep : string) : result (list string) :=
  match chars sep with
  | [] => Raise (ValueError "empty separator")
  | sep' => Ok (text <$> split_from sep' (chars s) 0 [])
  end.

(** [sep.join(pieces)] *)
Fixpoint join_chars (sep : list ascii) (pieces : list (list ascii)) : list ascii :=
  match pieces with
  | [] => []
  | [p] => p
  | p :: ps => p ++ sep ++ join_chars sep ps
  end.

Definition join (sep : string) (pieces : list string) : string :=
  text (join_chars (chars sep) (chars <$> pieces)).

(** *** Dictionaries in insertion order

    A [dict] keeps its keys in the order they were first set, and a
    loop over it meets them in that order. *)

Definition keys {V} (d : list (string * V)) : list string := d.*1.
Definition values {V} (d : list (string * V)) : list V := d.*2.

(** [d[k]] *)
Fixpoint lookup_key {V} (d : list (string * V)) (k : string) : result V :=
  match d with
  | [] => Raise (KeyError k)
  | (k', v) :: d' => if decide (k' = k) then Ok v else lookup_key d' k
  end.

(** [d[k] = v]: a key already there keeps its place. *)
Fixpoint set_key {V} (d : list (string * V)) (k : string) (v : V) : list (string * V) :=
  match d with
  | [] => [(k, v)]
  | (k', v') :: d' => if decide (k' = k) then (k, v) :: d' else (k', v') :: set_key d' k v
  end.

(** Literals and later assignments build a [dict] key by key. *)
Definition dict_of {V} (items : list (string * V)) : list (string * V) :=
  fold_left (λ d kv, set_key d kv.1 kv.2) items [].

(** No occurrence of [sep] starts in the first [n] places of [t]. *)
Definition no_start (sep : list ascii) (n : nat) (t : list ascii) : Prop :=
  ∀ i, (i < n)%nat → starts_with sep (drop i t) = false.

(** Text that does not start with white space. *)
Definition no_space_first (s : list ascii) : Prop :=
  match s with
  | [] => True
  | a :: _ => is_space a = false
  end.

End Py.

(** ** week1/IntroductionToCourse.ipynb *)

Module Week1.
Import Py.
Local Open Scope string_scope.

(** *** Unpacking a tuple

    [fname, lname, email = x] *)

Definition unpack_name (x : list string) : result (string * string * string) :=
  targets ← unpack 3 x;
  match targets with
  | [fname; lname; email] => Ok (fname, lname, email)
  | _ => Raise (ValueError "unpack")  (* not reached: [unpack 3] returns three values *)
  end.

Definition x3 : list string := ["Christopher"; "Brooks"; "brooksch@umich.edu"].
Definition x4 : list string := ["Christopher"; "Brooks"; "brooksch@umich.edu"; "Ann Arbor"].

(** *** The sales statement *)

Definition sales_record : gmap string obj :=
  {[ "price" := Float 3.24; "num_items" := Int 4; "person" := Str "Chris" ]}.

Definition sales_statement : string :=
  "{} bought {} item(s) at a price of {} each for a total of {}".

(** [sales_record['num_items'] * sales_record['price']] *)
Definition sales_total (sales_record : gmap string obj) : result obj :=
  num_items ← getitem sales_record "num_items";
  price ← getitem sales_record "price";
  mul num_items price.

(** The text the cell prints. *)
Definition sales_cell (sales_record : gmap string obj) : result string :=
  person ← getitem sales_record "person";
  num_items ← getitem sales_record "num_items";
  price ← getitem sales_record "price";
  total ← sales_total sales_record;
  format sales_statement [person; num_items; price; total].

(** *** Grouped means over the rows of mpg.csv

    [csv.DictReader] yields one [dict] of text per line of the file. *)

Abbreviation record := (gmap string string).

(** [set(d[by] for d in mpg)] *)
Definition distinct (by_ : string) (mpg : list record) : result (gset string) :=
  vals ← for_each (λ d, getitem d by_) mpg; Ok (list_to_set vals).

(** The body of the inner loop: a row of group [c] adds its value to
    [summpg] (the int 0 it starts from is the float 0.0 from the first
    addition on) and one to the count. *)
Definition add_row (by_ value : string) (c : string)
    (acc : float * Z) (d : record) : result (float * Z) :=
  let (summpg, count) := acc in
  k ← getitem d by_;
  if decide (k = c) then
    v ← getitem d value;
    x ← float_of_str v;
    Ok ((summpg + x)%float, count + 1)
  else Ok acc.

(** [summpg / count] *)
Definition truediv (summpg : float) (count : Z) : result float :=
  if decide (count = 0) then Raise (ZeroDivisionError "division by zero")
  else n ← float_of_int count; Ok (summpg / n)%float.

(** One turn of the outer loop: the pair appended for group [c]. *)
Definition group_mean (by_ value : string) (mpg : list record) (c : string)
    : result (string * float) :=
  acc ← for_fold (add_row by_ value c) (0%float, 0) mpg;
  avg ← truediv acc.1 acc.2;
  Ok (c, avg).

(** The outer loop, meeting the groups in [order]. *)
Definition group_means (by_ value : string) (mpg : list record) (order : list string)
    : result (list (string * float)) :=
  for_each (group_mean by_ value mpg) order.

(** A grouping cell up to its sort: the set of groups is built first,
    and the loop then meets its elements in [order]. *)
Definition grouping (by_ value : string) (mpg : list record) (order : list string)
    : result (list (string * float)) :=
  groups ← distinct by_ mpg;
  group_means by_ value mpg order.

(** [order] is a way to iterate over [set(d[by] for d in mpg)]. *)
Definition iteration_order (by_ : string) (mpg : list record) (order : list string) : Prop :=
  ∃ groups, distinct by_ mpg = Ok groups ∧ iterates groups order.

(** The cylinder cell: [CtyMpgByCyl.sort(key=lambda x: x[0])] *)
Definition CtyMpgByCyl (mpg : list record) (order : list string)
    : result (list (string * float)) :=
  appended ← grouping "cyl" "cty" mpg order;
  Ok (sort_by String.ltb fst appended).

(** The vehicle class cell: [HwyMpgByClass.sort(key=lambda x: x[1])] *)
Definition HwyMpgByClass (mpg : list record) (order : list string)
    : result (list (string * float)) :=
  appended ← grouping "class" "hwy" mpg order;
  Ok (sort_by PrimFloat.ltb snd appended).

(** The same aggregation in the words of its description: the rows are
    partitioned by equality of the text in the grouping column, and a
    part has the arithmetic mean of its parsed values. *)
Definition partition_by (by_ c : string) (mpg : list record) : list record :=
  filter (λ d, d !! by_ = Some c) mpg.

Definition parse_entry (value : string) (d : record) : result float :=
  v ← getitem d value; float_of_str v.

Definition arithmetic_mean (xs : list float) : result float :=
  truediv (fold_left PrimFloat.add xs 0%float) (Z.of_nat (length xs)).

Definition mean_of_partition (by_ value : string) (mpg : list record) (c : string)
    : result float :=
  xs ← for_each (parse_entry value) (partition_by by_ c mpg);
  arithmetic_mean xs.

(** Three rows with the two columns the cylinder cell reads. *)
Definition mpg3 : list record :=
  [ {[ "cyl" := "4"; "cty" := "20" ]};
    {[ "cyl" := "4"; "cty" := "30" ]};
    {[ "cyl" := "6"; "cty" := "15" ]} ].

(** Three rows with the four columns the two grouping cells read. *)
Definition mpg_sample : list record :=
  [ {[ "cyl" := "4"; "cty" := "20"; "class" := "compact"; "hwy" := "29" ]};
    {[ "cyl" := "4"; "cty" := "30"; "class" := "compact"; "hwy" := "31" ]};
    {[ "cyl" := "6"; "cty" := "15"; "class" := "suv"; "hwy" := "20" ]} ].

(** Two rows, the second with a city mileage that is not a number. *)
Definition mpg_bad : list record :=
  [ {[ "cyl" := "4"; "cty" := "20" ]};
    {[ "cyl" := "6"; "cty" := "n/a" ]} ].

(** *** The even numbers below 1000 *)

(** [for number in range(0, stop): if number % 2 == 0: my_list.append(number)] *)
Definition my_list_loop (stop : Z) : list Z :=
  fold_left (λ my_list number, if (number mod 2 =? 0)%Z then (my_list ++ [number])%list else my_list)
            (range 0 stop) [].

(** [[number for number in range(0, stop) if number % 2 == 0]] *)
Definition my_list_comprehension (stop : Z) : list Z :=
  List.filter (λ number, (number mod 2 =? 0)%Z) (range 0 stop).

(** *** Functions with optional parameters *)

(** [def add_numbers(x, y): return x + y] *)
Definition add_numbers (x y : obj) : result obj := add x y.

(** [def add_numbers(x, y, z=None)]: [None] is the omitted argument. *)
Definition add_numbers_z (x y : obj) (z : option obj) : result obj :=
  match z with
  | None => add x y
  | Some z => xy ← add x y; add xy z
  end.

(** [def add_numbers(x, y, z=None, flag=False)]: what it prints, and
    what it returns. *)
Definition add_numbers_flag (x y : obj) (z : option obj) (flag : bool)
    : list string * result obj :=
  (if flag then ["Flag is true!"] else [], add_numbers_z x y z).

(** [my_function = lambda a, b, c: a + b] *)
Definition my_function (a b c : obj) : result obj := add a b.

(** *** Looping over a list

    What a loop prints, line by line, and how it ends. *)

(** [for item in x: print(item)] *)
Definition for_print (x : list obj) : list string :=
  fold_left (λ out item, (out ++ [str item])%list) x [].

(** [while (i != len(x)): print(x[i]); i = i + 1], run for at most
    [fuel] turns from the state [i], [out]; [None] when the turns run
    out. *)
Fixpoint while_print (fuel : nat) (x : list obj) (i : Z) (out : list string)
    : option (list string * result ()) :=
  match fuel with
  | O => None
  | S fuel' =>
      if decide (i ≠ Z.of_nat (length x)) then
        match item "list" x i with
        | Ok v => while_print fuel' x (i + 1) (out ++ [str v])%list
        | Raise e => Some (out, Raise e)
        end
      else Some (out, Ok ())
  end.

(** The cell starts from [i = 0]. *)
Definition while_cell (fuel : nat) (x : list obj) : option (list string * result ()) :=
  while_print fuel x 0 [].

(** *** Text *)

(** ['...'.split(' ')[0]] and ['...'.split(' ')[-1]] *)
Definition first_word (s : string) : result string :=
  words ← split s " "; item "list" words 0.
Definition last_word (s : string) : result string :=
  words ← split s " "; item "list" words (-1).

(** *** A dictionary of e-mail addresses *)

Abbreviation emails := (list (string * option string)).

Definition x_emails : emails :=
  dict_of [("Christopher Brooks", Some "brooksch@umich.edu");
           ("Bill Gates", Some "billg@microsoft.com")].

(** [print] of an address or of [None]. *)
Definition str_email (email : option string) : string := default "None" email.

(** [for name in x: print(x[name])] *)
Definition print_by_name (x : emails) : result (list string) :=
  for_each (λ name, email ← lookup_key x name; Ok (str_email email)) (keys x).

(** [for email in x.values(): print(email)] *)
Definition print_values (x : emails) : list string := str_email <$> values x.

(** [for name, email in x.items(): print(name); print(email)] *)
Definition print_items (x : emails) : list string :=
  concat ((λ kv : string * option string, [kv.1; str_email kv.2]) <$> x).

(** *** The average over all rows

    [sum(float(d[value]) for d in mpg) / len(mpg)]: [sum] adds from the
    left, starting from the int 0. *)
Definition average (value : string) (mpg : list record) : result float :=
  xs ← for_each (parse_entry value) mpg;
  truediv (fold_left PrimFloat.add xs 0%float) (Z.of_nat (length mpg)).

(** *** [map] of [min] over two lists *)

(** [min(a, b)] keeps [a] unless [b < a]. *)
Definition min2 (a b : float) : float := if (b <? a)%float then b else a.

(** [cheapest = map(min, store1, store2)], which stops with the shorter
    list. *)
Definition cheapest (store1 store2 : list float) : list float :=
  zip_with min2 store1 store2.

Definition store1 : list float := [10.00; 11.00; 12.34; 2.34]%float.
Definition store2 : list float := [9.00; 11.10; 12.34; 2.01]%float.

(** *** The class [Person] *)

(** The attributes of the class, and of a new instance. *)
Definition Person_class : gmap string string :=
  {[ "department" := "School of Information" ]}.
Definition Person : gmap string string := ∅.

(** [self.attr]: the instance's attribute, else the class's; [None]
    stands for [AttributeError]. *)
Definition getattr (self : gmap string string) (attr : string) : option string :=
  match self !! attr with
  | Some v => Some v
  | None => Person_class !! attr
  end.

Definition set_name (self : gmap string string) (new_name : string)
    : gmap string string :=
  <[ "name" := new_name ]> self.

Definition set_location (self : gmap string string) (new_location : string)
    : gmap string string :=
  <[ "location" := new_location ]> self.

(** ['{} live in {} and works in the department {}'.format(person.name,
    person.location, person.department)] *)
Definition describe (person : gmap string string) : option (result string) :=
  name ← getattr person "name";
  location ← getattr person "location";
  department ← getattr person "department";
  Some (format "{} live in {} and works in the department {}"
               [Str name; Str location; Str department]).

(** Two classes with the same mean highway mileage. *)
Definition mpg_tied : list record :=
  [ {[ "class" := "suv"; "hwy" := "30" ]};
    {[ "class" := "compact"; "hwy" := "29" ]};
    {[ "class" := "compact"; "hwy" := "31" ]} ].

End Week1.

(** ** The pandas the notebooks use

    A Series is a column of values, each under the index label of its
    row; a DataFrame is a table of floats whose rows carry their label.
    Every Series of the notebook is computed from a column of the one
    frame [df] and so shares its index.  For [&] the general case is
    modelled too: [logical_and] aligns its operands on their labels as
    pandas does, and [and_] is its use between Series over one index.
    Selecting and masking the rows, [loc] and [where_rows], are
    modelled over one index, which is how every cell uses them, and are
    [None] elsewhere. *)

Module Pandas.
Import Py.

Abbreviation Series A := (list (Z * A)).

Record DataFrame : Type := {
  columns : list string;
  rows : list (Z * list float)
}.

Definition index {A} (s : list (Z * A)) : list Z := s.*1.


(** [df[col]]: the column named [col]; a row too short for it reads as
    missing. *)
Definition getitem_col (df : DataFrame) (col : string) : result (Series float) :=
  match list_find (λ c, c = col) (columns df) with
  | Some (j, _) => Ok (map (λ r, (r.1, nth j r.2 nan)) (rows df))
  | None => Raise (KeyError col)
  end.

(** The Boolean Series of a condition on the rows of a table. *)
Definition broadcast {A} (p : A → bool) (s : list (Z * A)) : Series bool :=
  map (λ r, (r.1, p r.2)) s.

(** [s > t] and [s < t], also written [s.gt(t)] and [s.lt(t)]. *)
Definition gt (s : Series float) (t : float) : Series bool :=
  broadcast (λ x, (t <? x)%float) s.
Definition lt (s : Series float) (t : float) : Series bool :=
  broadcast (λ x, (x <? t)%float) s.

(** [s[label]]: the value under a label, the first when the label is
    repeated. *)
Fixpoint at_label {A} (s : list (Z * A)) (label : Z) : option A :=
  match s with
  | [] => None
  | (l, v) :: s' => if decide (l = label) then Some v else at_label s' label
  end.

(** The index on which two Series of distinct labels and different
    indexes are aligned: the labels of either, in ascending order. *)
Definition union_index (ia ib : list Z) : list Z :=
  merge_sort Z.le (list_union ia ib).

(** [a & b] on two Boolean Series.  Over one index the rows combine
    one by one.  Otherwise pandas first aligns the two on the labels of
    either, a label that one of them lacks holding a missing value
    there, and the missing values come out [False].  [None] is what is
    not modelled: an index that repeats a label, where alignment pairs
    every row of the one with every row of the other under that label,
    and an empty Series beside one that is not, where the versions of
    pandas differ on the order of the labels. *)
Definition logical_and (a b : Series bool) : option (Series bool) :=
  if decide (index a = index b)
  then Some (zip_with (λ x y, (x.1, x.2 && y.2)) a b)
  else if decide (NoDup (index a) ∧ NoDup (index b) ∧ index a ≠ [] ∧ index b ≠ [])
  then Some ((λ l, (l, default false (at_label a l) && default false (at_label b l)))
             <$> union_index (index a) (index b))
  else None.

(** [a & b] between two Series over one index, as the Series of one
    frame are; [None] marks a use outside that case. *)
Definition and_ (a b : Series bool) : option (Series bool) :=
  if decide (index a = index b) then logical_and a b else None.

(** [bool(s)], which Python's [and] and [or] ask of their left operand:
    pandas refuses to answer. *)
Definition truth {A} (s : Series A) : result bool :=
  Raise (ValueError
    "The truth value of a Series is ambiguous. Use a.empty, a.bool(), a.item(), a.any() or a.all().").

(** [a and b] *)
Definition native_and {A} (a b : Series A) : result (Series A) :=
  truth a ≫= λ t : bool, Ok (if t then b else a).

(** The rows of [x] beside a [True] of the mask. *)
Definition selected {A} (x : list (Z * A)) (mask : Series bool) : list (Z * A) :=
  (List.filter (λ r : (Z * A) * (Z * bool), r.2.2) (zip x mask)).*1.

(** [x[mask]]: the rows of [x] whose mask is [True], labels kept. *)
Definition loc {A} (x : list (Z * A)) (mask : Series bool) : option (list (Z * A)) :=
  if decide (index x = index mask) then Some (selected x mask) else None.

(** [x.where(cond)]: the rows of [x], those whose condition is [False]
    blanked by [na]. *)
Definition where_rows {A} (na : A → A) (x : list (Z * A)) (cond : Series bool)
    : option (list (Z * A)) :=
  if decide (index x = index cond)
  then Some (zip_with (λ (r : Z * A) (c : Z * bool), if c.2 then r else (r.1, na r.2)) x cond)
  else None.

(** A blanked row of a frame holds NaN in every cell. *)
Definition blank (row : list float) : list float := map (λ _, nan) row.

(** [df.where(cond)] *)
Definition where_ (df : DataFrame) (cond : Series bool) : option DataFrame :=
  rows' ← where_rows blank (rows df) cond;
  Some {| columns := columns df; rows := rows' |}.

(** [df[mask]] *)
Definition getitem_mask (df : DataFrame) (mask : Series bool) : option DataFrame :=
  rows' ← loc (rows df) mask;
  Some {| columns := columns df; rows := rows' |}.

(** [df.dropna()]: the rows without a missing cell. *)
Definition dropna (df : DataFrame) : DataFrame :=
  {| columns := columns df;
     rows := List.filter (λ r, forallb (λ x, negb (is_nan x)) r.2) (rows df) |}.

(** [df.head()] *)
Definition head (df : DataFrame) : DataFrame :=
  {| columns := columns df; rows := take 5 (rows df) |}.

(** [s < t] for a Boolean Series [s]: [True] compares as 1.0 and
    [False] as 0.0. *)
Definition bool_float (b : bool) : float := if b then 1%float else 0%float.
Definition lt_bool (s : Series bool) (t : float) : Series bool :=
  broadcast (λ b, (bool_float b <? t)%float) s.



(** [x.lower()] and [x.strip()] on ASCII text. *)
Definition str_lower (x : string) : string := text (lower <$> chars x).
Definition str_strip (x : string) : string := text (strip (chars x)).

(** [df.columns = [x.lower().strip() for x in df.columns]] *)
Definition clean_columns (df : DataFrame) : DataFrame :=
  {| columns := (λ x, str_strip (str_lower x)) <$> columns df; rows := rows df |}.

End Pandas.

(** ** week2/QueryingDataFrame_ed.ipynb *)

Module Week2.
Import Py Pandas.
Local Open Scope string_scope.

(** [admit_mask = df['chance of admit'] > 0.7] *)
Definition admit_mask (df : DataFrame) : result (Series bool) :=
  chance ← getitem_col df "chance of admit"; Ok (gt chance 0.7).

(** [df.where(admit_mask)] *)
Definition where_admit (df : DataFrame) : result (option DataFrame) :=
  admit_mask ← admit_mask df; Ok (where_ df admit_mask).

(** [df.where(admit_mask).dropna()] *)
Definition where_dropna_admit (df : DataFrame) : result (option DataFrame) :=
  where_admit df ≫= λ masked : option DataFrame, Ok (dropna <$> masked).

(** [df[df['chance of admit'] > 0.7]] *)
Definition query_admit (df : DataFrame) : result (option DataFrame) :=
  chance ← getitem_col df "chance of admit"; Ok (getitem_mask df (gt chance 0.7)).

(** [(df['chance of admit'] > 0.7) and (df['chance of admit'] < 0.9)] *)
Definition native_and_cell (df : DataFrame) : result (Series bool) :=
  a ← getitem_col df "chance of admit";
  b ← getitem_col df "chance of admit";
  native_and (gt a 0.7) (lt b 0.9).

(** [(df['chance of admit'] > 0.7) & (df['chance of admit'] < 0.9)] *)
Definition and_cell (df : DataFrame) : result (option (Series bool)) :=
  a ← getitem_col df "chance of admit";
  b ← getitem_col df "chance of admit";
  Ok (and_ (gt a 0.7) (lt b 0.9)).


(** A frame of four applicants, serial numbers 1 to 4, with those
    chances. *)
Definition df4 : DataFrame :=
  {| columns := ["gre score"; "chance of admit"];
     rows := [(1, [337; 0.65]%float); (2, [324; 0.72]%float);
             (3, [316; 0.85]%float); (4, [322; 0.95]%float)] |}.

(** [df['chance of admit'].gt(0.7) & df['chance of admit'].lt(0.9)] *)
Definition gt_and_lt (chance : Series float) : option (Series bool) :=
  and_ (gt chance 0.7) (lt chance 0.9).

(** [df['chance of admit'].gt(0.7).lt(0.9)]: [lt] is asked of the
    Boolean Series that [gt] returned. *)
Definition gt_then_lt (chance : Series float) : Series bool :=
  lt_bool (gt chance 0.7) 0.9.

(** Two applicants under the column names of the file. *)
Definition cleaned_example : DataFrame :=
  {| columns := ["GRE Score"; "Chance of Admit "]%string;
     rows := [(1, [337; 0.92]%float); (2, [324; 0.76]%float)] |}.

End Week2.

(** ** The [DataFrame] example: the names of the presidents *)

Module Presidents.
Import Py.
Local Open Scope string_scope.

(** A row handed to [splitname]: a Series of text indexed by the names
    of the columns, in their order. *)
Abbreviation row_series := (list (string * string)).

(** [def splitname(row)]: [row['First']] and [row['Last']] are set from
    the first and the last word of [row['President']]. *)
Definition splitname (row : row_series) : result row_series :=
  president ← lookup_key row "President";
  words ← split president " ";
  first ← item "list" words 0;
  let row := set_key row "First" first in
  president ← lookup_key row "President";
  words ← split president " ";
  last ← item "list" words (-1);
  Ok (set_key row "Last" last).

End Presidents.

(** * Properties of the cells *)

Import Py Pandas Week1 Week2.

(** ** Floats and their text

    The conversions agree with the literals of the notebook and with
    the texts Python prints. *)

Example float_of_str_examples :
  float_of_str "3.24" = Ok 3.24%float
  ∧ float_of_str "20" = Ok 20%float
  ∧ float_of_str " 1e3 " = Ok 1000%float
  ∧ float_of_str "1_000.5" = Ok 1000.5%float
  ∧ float_of_str "-.5" = Ok (-0.5)%float
  ∧ float_of_str "9007199254740993" = Ok 9007199254740992%float
  ∧ float_of_str "Infinity" = Ok infinity
  ∧ float_of_str "n/a" = Raise (ValueError "could not convert string to float: 'n/a'")
  ∧ float_of_str "" = Raise (ValueError "could not convert string to float: ''").
Proof. repeat split; vm_compute; reflexivity. Qed.

Example repr_float_examples :
  repr_float 0.1 = "0.1"%string
  ∧ repr_float (0.1 + 0.2) = "0.30000000000000004"%string
  ∧ repr_float 25 = "25.0"%string
  ∧ repr_float 1e16 = "1e+16"%string
  ∧ repr_float 0.00001 = "1e-05"%string
  ∧ repr_float (-2.5) = "-2.5"%string
  ∧ repr_float (1 / 3) = "0.3333333333333333"%string
  ∧ repr_float 1.7976931348623157e308 = "1.7976931348623157e+308"%string.
Proof. repeat split; vm_compute; reflexivity. Qed.

Example float_of_int_examples :
  float_of_int 4 = Ok 4%float
  ∧ float_of_int (2 ^ 53 + 1) = Ok 9007199254740992%float
  ∧ float_of_int (2 ^ 1024 - 2 ^ 970 - 1) = Ok 1.7976931348623157e308%float
  ∧ float_of_int (2 ^ 1024 - 2 ^ 970)
    = Raise (OverflowError "int too large to convert to float").
Proof. repeat split; vm_compute; reflexivity. Qed.

(** ** Unpacking *)

(** C7: unpacking a tuple into a number of names other than its length
    raises a [ValueError] whose message states the expected count;
    nothing is dropped or padded, since a successful unpacking returns
    the tuple itself; and the cell that unpacks the four-element tuple
    into three names raises "too many values to unpack (expected 3)". *)
Theorem unpack_count_mismatch :
  (∀ (A : Type) (n : nat) (x : list A), length x ≠ n →
     unpack n x = Raise (ValueError
       (if (length x <? n)%nat
        then "not enough values to unpack (expected " +:+ str_int (Z.of_nat n) +:+
             ", got " +:+ str_int (Z.of_nat (length x)) +:+ ")"
        else "too many values to unpack (expected " +:+ str_int (Z.of_nat n) +:+ ")")))
  ∧ (∀ (A : Type) (n : nat) (x y : list A), unpack n x = Ok y → y = x ∧ length x = n)
  ∧ (∀ x fname lname email,
       unpack_name x = Ok (fname, lname, email) → x = [fname; lname; email])
  ∧ unpack_name x4 = Raise (ValueError "too many values to unpack (expected 3)")
  ∧ unpack_name x3 = Ok ("Christopher", "Brooks", "brooksch@umich.edu")%string.
Proof.
  split_and!; [| | | reflexivity ..].
  - intros A n x Hne. unfold unpack.
    destruct (Nat.ltb_spec (length x) n) as [Hlt | Hge]; [reflexivity |].
    destruct (Nat.ltb_spec n (length x)) as [Hgt | Hle]; [reflexivity | lia].
  - intros A n x y. unfold unpack.
    destruct (Nat.ltb_spec (length x) n) as [Hlt | Hge]; [discriminate |].
    destruct (Nat.ltb_spec n (length x)) as [Hgt | Hle]; [discriminate |].
    intros [= <-]. split; [reflexivity | lia].
  - intros x fname lname email.
    destruct x as [| a [| b [| c [| d x]]]]; try discriminate.
    by intros [= <- <- <-].
Qed.

Lemma unpack_count_mismatch_witness :
  (length x4 ≠ 3%nat
   ∧ unpack 3 x4 = Raise (ValueError "too many values to unpack (expected 3)"))
  ∧ (unpack 3 x3 = Ok x3 ∧ x3 = x3 ∧ length x3 = 3%nat)
  ∧ (unpack_name x3 = Ok ("Christopher", "Brooks", "brooksch@umich.edu")%string
     ∧ x3 = ["Christopher"; "Brooks"; "brooksch@umich.edu"]%string).
Proof.
  split_and!.
  - discriminate.
  - exact (proj1 unpack_count_mismatch string 3%nat x4 ltac:(discriminate)).
  - reflexivity.
  - exact (proj1 (proj1 (proj2 unpack_count_mismatch) string 3%nat x3 x3 eq_refl)).
  - exact (proj2 (proj1 (proj2 unpack_count_mismatch) string 3%nat x3 x3 eq_refl)).
  - reflexivity.
  - exact (proj1 (proj2 (proj2 unpack_count_mismatch)) x3 _ _ _ eq_refl).
Defined.

(** ** The sales statement *)

(** C9: for the record with price 3.24 and 4 items the total
    [num_items * price] is the float 12.96, whose text is "12.96", and
    that is the total the formatted statement shows. *)
Theorem sales_total_12_96 :
  sales_total sales_record = Ok (Float 12.96)
  ∧ str (Float 12.96) = "12.96"%string
  ∧ sales_cell sales_record =
      Ok "Chris bought 4 item(s) at a price of 3.24 each for a total of 12.96"%string.
Proof. repeat split; vm_compute; reflexivity. Qed.

(** ** The even numbers *)

Lemma append_loop_filter (p : Z → bool) (l acc : list Z) :
  fold_left (λ my_list number, if p number then my_list ++ [number] else my_list) l acc
  = acc ++ List.filter p l.
Proof.
  revert acc. induction l as [| number l IH]; intros acc; simpl.
  - by rewrite app_nil_r.
  - rewrite IH. destruct (p number); [| done]. by rewrite <- app_assoc.
Qed.

(** C10: the loop that appends every even number of [range(0, 1000)]
    and the list comprehension build the same list, the 500 numbers
    0, 2, ..., 998 in ascending order; the two agree for every bound. *)
Theorem my_list_loop_comprehension :
  (∀ stop, my_list_loop stop = my_list_comprehension stop)
  ∧ my_list_loop 1000 = (λ i, 2 * i) <$> range 0 500
  ∧ my_list_comprehension 1000 = (λ i, 2 * i) <$> range 0 500
  ∧ length (my_list_loop 1000) = 500%nat.
Proof.
  split; [| repeat split; vm_compute; reflexivity].
  intros stop. unfold my_list_loop, my_list_comprehension.
  apply (append_loop_filter (λ number, number mod 2 =? 0)).
Qed.

(** ** Masks *)

Section SameIndex.
Context {A B : Type}.

Lemma same_index_length (x : list (Z * A)) (y : list (Z * B)) :
  index x = index y → length x = length y.
Proof.
  intros H. apply (f_equal length) in H. unfold index in H.
  by rewrite !length_fmap in H.
Qed.

(** Two tables over one index are met row by row. *)
Lemma same_index_ind (P : list (Z * A) → list (Z * B) → Prop) :
  P [] [] →
  (∀ i a b x y, index x = index y → P x y → P ((i, a) :: x) ((i, b) :: y)) →
  ∀ x y, index x = index y → P x y.
Proof.
  intros Hnil Hcons x.
  induction x as [| [i a] x IH]; intros [| [j b] y] H; try discriminate; [done |].
  injection H as -> H. apply Hcons; auto.
Qed.
End SameIndex.

Lemma index_broadcast {A} (p : A → bool) (x : list (Z * A)) :
  index (broadcast p x) = index x.
Proof. induction x as [| r x IH]; [done |]. cbn. f_equal. exact IH. Qed.

(** Over one index [a & b] combines the rows one by one. *)
Lemma and_rows (a b : Series bool) :
  and_ a b
  = if decide (index a = index b)
    then Some (zip_with (λ x y : Z * bool, (x.1, x.2 && y.2)) a b)
    else None.
Proof. unfold and_, logical_and. by case_decide. Qed.


(** ** Masks over different labels *)













(** The masks of the notebook are over the index of [df]. *)
Lemma index_getitem_col df col s :
  getitem_col df col = Ok s → index s = index (rows df).
Proof.
  unfold getitem_col. destruct (list_find _ _) as [[j c] |]; [| discriminate].
  intros [= <-]. generalize (rows df). intros x.
  induction x as [| r x IH]; [done |]. cbn. f_equal. exact IH.
Qed.

Lemma admit_mask_index df mask :
  admit_mask df = Ok mask → index mask = index (rows df).
Proof.
  unfold admit_mask.
  destruct (getitem_col df "chance of admit") as [chance |] eqn:Hc; [| discriminate].
  simpl. intros [= <-]. unfold gt. rewrite index_broadcast.
  by eapply index_getitem_col.
Qed.

(** A comparison of a column with a threshold is a condition on the
    rows, so the cells about admission are instances of what follows. *)
Lemma gt_getitem_col df col s t :
  getitem_col df col = Ok s →
  ∃ j : nat, gt s t = broadcast (λ row, (t <? nth j row nan)%float) (rows df).
Proof.
  unfold getitem_col. destruct (list_find _ _) as [[j c] |]; [| discriminate].
  intros [= <-]. exists j. unfold gt, broadcast. rewrite map_map. done.
Qed.

Lemma admit_cells df chance :
  getitem_col df "chance of admit" = Ok chance →
  ∃ p : list float → bool,
    admit_mask df = Ok (broadcast p (rows df))
    ∧ where_admit df = Ok (where_ df (broadcast p (rows df)))
    ∧ query_admit df = Ok (getitem_mask df (broadcast p (rows df))).
Proof.
  intros Hc. destruct (gt_getitem_col df _ chance 0.7 Hc) as [j Hj].
  exists (λ row, (0.7 <? nth j row nan)%float).
  unfold where_admit, query_admit, admit_mask. rewrite Hc. simpl. by rewrite Hj.
Qed.

(** ** [where] and Boolean indexing *)

Lemma selected_cons {A} (r : Z * A) (m : Z * bool) x mask :
  selected (r :: x) (m :: mask)
  = if m.2 then r :: selected x mask else selected x mask.
Proof. unfold selected. simpl. by destruct (m.2). Qed.

Lemma loc_selected {A} (x : list (Z * A)) (mask : Series bool) :
  index x = index mask → loc x mask = Some (selected x mask).
Proof. intros H. unfold loc. by rewrite (decide_True _ _ H). Qed.

Section Selected.
Context {A : Type}.
Implicit Types (x : list (Z * A)) (mask : Series bool).

Lemma selected_sublist x mask :
  index x = index mask → selected x mask `sublist_of` x.
Proof.
  revert x mask. apply same_index_ind; [constructor |].
  intros i a b x mask _ IH. rewrite selected_cons. simpl.
  destruct b; by constructor.
Qed.

Lemma selected_elem x mask (r : Z * A) :
  index x = index mask →
  r ∈ selected x mask ↔
  ∃ (i : nat) (m : Z * bool), x !! i = Some r ∧ mask !! i = Some m ∧ m.2 = true.
Proof.
  revert x mask. apply same_index_ind.
  - split; [by intros ?%elem_of_nil | by intros (i & m & ? & _)].
  - intros i a b x mask _ IH. rewrite selected_cons. simpl. split.
    + destruct b.
      * intros [-> | Hin]%elem_of_cons; [by exists 0%nat, (i, true) |].
        apply IH in Hin as (j & m & ? & ? & ?). by exists (S j), m.
      * intros Hin. apply IH in Hin as (j & m & ? & ? & ?). by exists (S j), m.
    + intros ([| j] & m & Hx & Hm & Ht); simpl in *.
      * injection Hx as <-. injection Hm as <-. simpl in Ht. subst b. left.
      * assert (r ∈ selected x mask) by (apply IH; eauto).
        destruct b; [by right | done].
Qed.

Lemma selected_all x mask :
  index x = index mask →
  length (selected x mask) = length x ↔ Forall (λ m : Z * bool, m.2 = true) mask.
Proof.
  revert x mask. apply same_index_ind; [done |].
  intros i a b x mask H IH. rewrite selected_cons. simpl.
  pose proof (sublist_length _ _ (selected_sublist x mask H)) as Hle.
  destruct b; simpl.
  - rewrite Forall_cons. split; [intros [=]; split; [done | by apply IH] |].
    intros [_ ?]. f_equal. by apply IH.
  - split; [lia | by intros [[=] _]%Forall_cons].
Qed.
End Selected.

Lemma blank_missing (row : list float) :
  length (blank row) = length row ∧ Forall (λ cell, is_nan cell = true) (blank row).
Proof.
  unfold blank. split; [by rewrite length_map |].
  induction row; simpl; by constructor.
Qed.

(** Masks computed from a condition on the rows. *)
Section Predicates.
Context {A : Type}.
Implicit Types (x : list (Z * A)) (p : A → bool).

Lemma selected_broadcast p x :
  selected x (broadcast p x) = List.filter (λ r : Z * A, p r.2) x.
Proof.
  induction x as [| r x IH]; [done |].
  change (broadcast p (r :: x)) with ((r.1, p r.2) :: broadcast p x).
  rewrite selected_cons, IH. simpl. by destruct (p r.2).
Qed.

Lemma loc_broadcast p x :
  loc x (broadcast p x) = Some (List.filter (λ r : Z * A, p r.2) x).
Proof.
  rewrite loc_selected by (by rewrite index_broadcast).
  by rewrite selected_broadcast.
Qed.

Lemma and_broadcast p1 p2 x :
  and_ (broadcast p1 x) (broadcast p2 x) = Some (broadcast (λ a, p1 a && p2 a) x).
Proof.
  rewrite and_rows. rewrite decide_True by (by rewrite !index_broadcast).
  f_equal. induction x as [| r x IH]; [done |]. cbn. f_equal. exact IH.
Qed.

Lemma filter_twice (f g : Z * A → bool) x :
  List.filter g (List.filter f x) = List.filter (λ r, f r && g r) x.
Proof.
  induction x as [| r x IH]; [done |]. simpl.
  destruct (f r); simpl; [destruct (g r) |]; by rewrite IH.
Qed.
End Predicates.

(** Over the index of [df], [df.where(mask)] and [df[mask]] both
    answer: the first with every row of [df] under its label, the rows
    the mask rejects blanked; the second with the sub-sequence of the
    rows the mask accepts. *)
Lemma where_loc_over_index (df : DataFrame) (mask : Series bool) :
  index (rows df) = index mask →
  ∃ masked filtered,
    where_ df mask = Some masked ∧ getitem_mask df mask = Some filtered
    ∧ length (rows masked) = length (rows df)
    ∧ index (rows masked) = index (rows df)
    ∧ (∀ (i : nat) (r : Z * list float) (m : Z * bool),
         rows df !! i = Some r → mask !! i = Some m →
         rows masked !! i = Some (if m.2 then r else (r.1, blank r.2)))
    ∧ rows filtered = selected (rows df) mask
    ∧ (∀ r, r ∈ rows filtered ↔
            ∃ (i : nat) (m : Z * bool),
              rows df !! i = Some r ∧ mask !! i = Some m ∧ m.2 = true)
    ∧ (length (rows filtered) = length (rows df)
       ↔ Forall (λ m : Z * bool, m.2 = true) mask).
Proof.
  intros H. unfold where_, getitem_mask, where_rows.
  rewrite (loc_selected _ _ H), (decide_True _ _ H). simpl.
  do 2 eexists. split; [reflexivity |]. split; [reflexivity |]. simpl.
  split_and!.
  - rewrite length_zip_with, <- (same_index_length _ _ H). lia.
  - revert H. generalize (rows df). intros x. revert x mask.
    apply same_index_ind; [done |].
    intros i a b x y _ IH. cbn. f_equal; [by destruct b | exact IH].
  - intros i r m Hr Hm. by rewrite lookup_zip_with, Hr, Hm.
  - done.
  - intros r. by apply selected_elem.
  - by apply selected_all.
Qed.

(** C5: for every frame and condition on its rows, [df.where(mask)] has
    the rows of [df] in place, each under its label, those that fail the
    condition blanked to NaN, and so has the length of [df]; [df[mask]]
    has the rows that meet the condition and no other, each under its
    label and in the order of [df], so it is no longer than [df], and as
    long exactly when every row meets the condition. *)
Theorem where_keeps_filter_drops (df : DataFrame) (p : list float → bool) :
  ∃ masked filtered,
    where_ df (broadcast p (rows df)) = Some masked
    ∧ getitem_mask df (broadcast p (rows df)) = Some filtered
    ∧ length (rows masked) = length (rows df)
    ∧ index (rows masked) = index (rows df)
    ∧ rows masked
      = map (λ r : Z * list float, if p r.2 then r else (r.1, blank r.2)) (rows df)
    ∧ (∀ row, length (blank row) = length row
              ∧ Forall (λ cell, is_nan cell = true) (blank row))
    ∧ rows filtered = List.filter (λ r : Z * list float, p r.2) (rows df)
    ∧ rows filtered `sublist_of` rows df
    ∧ (length (rows filtered) ≤ length (rows df))%nat
    ∧ (length (rows filtered) = length (rows df)
       ↔ Forall (λ r : Z * list float, p r.2 = true) (rows df)).
Proof.
  pose proof (index_broadcast p (rows df)) as Hidx. symmetry in Hidx.
  destruct (where_loc_over_index df (broadcast p (rows df)) Hidx)
    as (masked & filtered & Hw & Hf & Hlen & Hindex & Hrows & Hsel & _ & Hall).
  exists masked, filtered.
  assert (rows filtered `sublist_of` rows df) as Hsub.
  { rewrite Hsel. by apply selected_sublist. }
  split_and!; try done.
  - apply list_eq. intros i. rewrite list_lookup_fmap.
    destruct (rows df !! i) as [r |] eqn:Hr; simpl.
    + apply (Hrows i r (r.1, p r.2)); [done |].
      unfold broadcast. by rewrite list_lookup_fmap, Hr.
    + apply lookup_ge_None. rewrite Hlen. by apply lookup_ge_None.
  - apply blank_missing.
  - by rewrite Hsel, selected_broadcast.
  - by apply sublist_length.
  - rewrite Hall. unfold broadcast. rewrite Forall_fmap. done.
Qed.

Lemma where_keeps_filter_drops_witness :
  ∃ masked filtered,
    where_ df4 (broadcast (λ row, 0.7 <? nth 1 row nan)%float (rows df4)) = Some masked
    ∧ getitem_mask df4 (broadcast (λ row, 0.7 <? nth 1 row nan)%float (rows df4))
      = Some filtered
    ∧ length (rows masked) = 4%nat ∧ length (rows filtered) = 3%nat.
Proof.
  destruct (where_keeps_filter_drops df4 (λ row, 0.7 <? nth 1 row nan)%float)
    as (masked & filtered & Hw & Hf & _).
  exists masked, filtered.
  split; [exact Hw |]. split; [exact Hf |].
  vm_compute in Hw, Hf. injection Hw as <-. injection Hf as <-. split; reflexivity.
Defined.

(** ** Filtering twice *)


(** C6: filtering the rows by a condition and the result by a second
    condition gives the rows that filtering once by the [&] of the two
    masks gives; both ways answer. *)
Theorem filter_composition (df : DataFrame) (p1 p2 : list float → bool) :
  (getitem_mask df (broadcast p1 (rows df))
     ≫= λ df1, getitem_mask df1 (broadcast p2 (rows df1)))
  = (and_ (broadcast p1 (rows df)) (broadcast p2 (rows df)) ≫= getitem_mask df)
  ∧ is_Some (and_ (broadcast p1 (rows df)) (broadcast p2 (rows df)) ≫= getitem_mask df)
  ∧ (and_ (broadcast p1 (rows df)) (broadcast p2 (rows df)) ≫= getitem_mask df)
    = Some {| columns := columns df;
              rows := List.filter (λ r : Z * list float, p1 r.2 && p2 r.2) (rows df) |}.
Proof.
  rewrite and_broadcast. unfold getitem_mask. simpl.
  rewrite !loc_broadcast. simpl. rewrite loc_broadcast. simpl.
  rewrite filter_twice. by split_and!.
Qed.

(** ** Loops that may raise *)

Section Loops.
Context {A B : Type} (f : A → result B).

Lemma for_each_ok l ys : for_each f l = Ok ys → Forall2 (λ x y, f x = Ok y) l ys.
Proof.
  revert ys. induction l as [| x l IH]; intros ys; simpl.
  - intros [= <-]. constructor.
  - destruct (f x) as [y |] eqn:Hx; [| discriminate]. simpl.
    destruct (for_each f l) as [ys' |]; [| discriminate]. simpl.
    intros [= <-]. constructor; auto.
Qed.

Lemma for_each_raise l e : for_each f l = Raise e → ∃ x, x ∈ l ∧ f x = Raise e.
Proof.
  induction l as [| x l IH]; simpl; [discriminate |].
  destruct (f x) as [y |] eqn:Hx; simpl.
  - destruct (for_each f l) as [ys |]; simpl; [discriminate |].
    intros [= <-]. destruct IH as (x' & ? & ?); [done |].
    exists x'. split; [by right | done].
  - intros [= <-]. exists x. split; [left | done].
Qed.

Lemma for_each_returns l : returns (for_each f l) ↔ Forall (λ x, returns (f x)) l.
Proof.
  split.
  - intros [ys Hys]. apply for_each_ok in Hys.
    induction Hys; constructor; [by eexists | done].
  - induction 1 as [| x l [y Hy] _ [ys Hys]]; simpl; [by eexists |].
    rewrite Hy, Hys. by eexists.
Qed.

Lemma for_each_length l ys : for_each f l = Ok ys → length ys = length l.
Proof. intros H%for_each_ok. symmetry. by eapply Forall2_length. Qed.
End Loops.

(** ** Grouped means *)

Lemma float_of_str_raises s e : float_of_str s = Raise e → ∃ msg, e = ValueError msg.
Proof.
  unfold float_of_str. destruct (sign_of _) as [neg r].
  destruct (unsigned_float neg r); [discriminate |]. intros [= <-]. by eexists.
Qed.


Section Grouping.
Variables by_ value : string.

Lemma partition_by_cons c (d : record) mpg :
  partition_by by_ c (d :: mpg)
  = if decide (d !! by_ = Some c) then d :: partition_by by_ c mpg
    else partition_by by_ c mpg.
Proof. unfold partition_by. by rewrite filter_cons. Qed.

(** The inner loop returns only when every row has the grouping
    column. *)
Lemma add_rows_has_by c mpg acc acc' :
  for_fold (add_row by_ value c) acc mpg = Ok acc' →
  Forall (λ d : record, is_Some (d !! by_)) mpg.
Proof.
  revert acc. induction mpg as [| d mpg IH]; intros acc; simpl; [constructor |].
  destruct (add_row by_ value c acc d) as [s |] eqn:Hd; [| discriminate]. simpl.
  intros Hrest. constructor; [| by eapply IH].
  unfold add_row, getitem in Hd. destruct acc.
  destruct (d !! by_); [by eexists | discriminate].
Qed.

Lemma add_row_step c (acc : float * Z) (d : record) k :
  d !! by_ = Some k →
  add_row by_ value c acc d
  = if decide (k = c)
    then x ← parse_entry value d; Ok ((acc.1 + x)%float, acc.2 + 1)
    else Ok acc.
Proof.
  intros Hk. destruct acc as [summpg count].
  unfold add_row, parse_entry, getitem. rewrite Hk. simpl.
  destruct (decide (k = c)); [| done].
  destruct (d !! value) as [v |]; simpl; [| done].
  by destruct (float_of_str v).
Qed.

(** The accumulators of the inner loop are the sum and the number of
    the parsed values of the part. *)
Lemma add_rows_partition c mpg acc :
  Forall (λ d : record, is_Some (d !! by_)) mpg →
  for_fold (add_row by_ value c) acc mpg
  = (xs ← for_each (parse_entry value) (partition_by by_ c mpg);
     Ok (fold_left PrimFloat.add xs acc.1, acc.2 + Z.of_nat (length xs))).
Proof.
  intros Hby. revert acc.
  induction Hby as [| d mpg [k Hk] _ IH]; intros acc.
  - simpl. destruct acc. simpl. by rewrite Z.add_0_r.
  - rewrite partition_by_cons. cbn [for_fold].
    rewrite (add_row_step c acc d k Hk).
    destruct (decide (k = c)) as [-> | Hne].
    + rewrite decide_True by done. cbn [for_each].
      destruct (parse_entry value d) as [x |]; simpl; [| done].
      rewrite IH. simpl.
      destruct (for_each _ _) as [xs |]; simpl; [| done].
      do 2 f_equal. lia.
    + rewrite decide_False by congruence. simpl. apply IH.
Qed.

(** One turn of the outer loop is the mean of one part. *)
Lemma group_mean_partition c mpg :
  Forall (λ d : record, is_Some (d !! by_)) mpg →
  group_mean by_ value mpg c
  = (avg ← mean_of_partition by_ value mpg c; Ok (c, avg)).
Proof.
  intros Hby. unfold group_mean, mean_of_partition, arithmetic_mean.
  rewrite add_rows_partition by done. simpl.
  by destruct (for_each _ _) as [xs |].
Qed.

Lemma group_mean_ok c mpg k avg :
  group_mean by_ value mpg c = Ok (k, avg) →
  k = c ∧ mean_of_partition by_ value mpg c = Ok avg.
Proof.
  intros H.
  assert (Forall (λ d : record, is_Some (d !! by_)) mpg) as Hby.
  { unfold group_mean in H.
    destruct (for_fold _ _ _) as [acc |] eqn:Hacc; [| discriminate].
    by eapply add_rows_has_by. }
  rewrite group_mean_partition in H by done.
  destruct (mean_of_partition by_ value mpg c); simpl in H; [| discriminate].
  by injection H as <- <-.
Qed.

Lemma distinct_elem mpg groups k :
  distinct by_ mpg = Ok groups →
  k ∈ groups ↔ ∃ d : record, d ∈ mpg ∧ d !! by_ = Some k.
Proof.
  unfold distinct.
  destruct (for_each _ mpg) as [vals |] eqn:Hvals; [| discriminate].
  simpl. intros [= <-]. rewrite elem_of_list_to_set.
  apply for_each_ok in Hvals. clear -Hvals.
  induction Hvals as [| d v mpg vals Hd _ IH].
  - split; [by intros ?%elem_of_nil | by intros (? & ?%elem_of_nil & _)].
  - unfold getitem in Hd. destruct (d !! by_) as [v' |] eqn:Hv; [| discriminate].
    injection Hd as ->. rewrite elem_of_cons, IH. split.
    + intros [-> | (d' & ? & ?)]; [exists d | exists d']; split; auto; by constructor.
    + intros (d' & [-> | Hin]%elem_of_cons & Hk); [left; congruence | right; eauto].
Qed.

Lemma distinct_returns mpg :
  Forall (λ d : record, is_Some (d !! by_)) mpg → returns (distinct by_ mpg).
Proof.
  intros Hby. unfold distinct.
  assert (returns (for_each (λ d : record, getitem d by_) mpg)) as [vals ->].
  { apply for_each_returns. eapply Forall_impl; [exact Hby |].
    intros d [k Hk]. unfold getitem. rewrite Hk. by eexists. }
  by eexists.
Qed.

Lemma iteration_order_elem mpg order c :
  iteration_order by_ mpg order →
  c ∈ order ↔ ∃ d : record, d ∈ mpg ∧ d !! by_ = Some c.
Proof.
  intros (groups & Hgroups & Horder). unfold iterates in Horder.
  rewrite Horder, elem_of_elements. by apply distinct_elem.
Qed.
End Grouping.

(** ** Sorting by a key *)

Section SortBy.
Context {A K : Type} (lt : K → K → bool) (key : A → K).
(** [le] is the order that [lt] decides on the keys that satisfy
    [ordered]. *)
Context (le : K → K → Prop) (ordered : K → Prop).
Hypothesis lt_le : ∀ a b, lt a b = true → le a b.
Hypothesis not_lt_le : ∀ a b, ordered a → ordered b → lt b a = false → le a b.

Lemma insert_perm x l : insert lt key x l ≡ₚ x :: l.
Proof.
  induction l as [| y l IH]; simpl; [done |].
  destruct (lt (key y) (key x)); [| done].
  rewrite IH. apply Permutation_swap.
Qed.

Lemma sort_by_perm l : sort_by lt key l ≡ₚ l.
Proof.
  induction l as [| x l IH]; simpl; [done |].
  by rewrite insert_perm, IH.
Qed.

Let by_key (a b : A) : Prop := le (key a) (key b).

Lemma insert_sorted x l :
  ordered (key x) → Forall (λ y, ordered (key y)) l →
  Sorted by_key l → Sorted by_key (insert lt key x l).
Proof.
  intros Hx Hl Hs. induction l as [| y l IH]; simpl.
  - repeat constructor.
  - apply Forall_cons in Hl as [Hy Hl]. apply Sorted_inv in Hs as [Hs Hhd].
    destruct (lt (key y) (key x)) eqn:Hlt.
    + constructor; [by apply IH |].
      destruct l as [| z l]; simpl.
      * constructor. by apply lt_le.
      * destruct (lt (key z) (key x)); constructor.
        -- by apply HdRel_inv in Hhd.
        -- by apply lt_le.
    + constructor; [by constructor |].
      constructor. by apply not_lt_le.
Qed.

Lemma sort_by_sorted l :
  Forall (λ y, ordered (key y)) l → Sorted by_key (sort_by lt key l).
Proof.
  induction 1 as [| x l Hx Hl IH]; simpl; [constructor |].
  apply insert_sorted; [done | | done].
  by rewrite sort_by_perm.
Qed.
End SortBy.

(** Text is ordered totally. *)
Lemma string_lt_le a b : String.ltb a b = true → String.leb a b = true.
Proof. unfold String.ltb, String.leb. by destruct (String.compare a b). Qed.

Lemma string_not_lt_le a b : String.ltb b a = false → String.leb a b = true.
Proof.
  unfold String.ltb, String.leb. rewrite (String.compare_antisym a b).
  by destruct (String.compare b a).
Qed.

(** Floats are ordered totally once NaN is set aside. *)
Lemma SFcompare_antisym x y c :
  SFcompare x y = Some c → SFcompare y x = Some (CompOpp c).
Proof.
  destruct x as [sx | sx | | sx mx ex], y as [sy | sy | | sy my ey]; simpl;
    try discriminate; intros [= <-]; try (by destruct sx); try (by destruct sy).
  - by destruct sx, sy.
  - destruct sx, sy; simpl; try done;
      rewrite (Z.compare_antisym ex ey); destruct (ex ?= ey)%Z; simpl; try done;
      change (PosDef.Pos.compare_cont Eq my mx) with (Pos.compare my mx);
      change (PosDef.Pos.compare_cont Eq mx my) with (Pos.compare mx my);
      rewrite (Pos.compare_antisym mx my); by destruct (Pos.compare mx my).
Qed.

Lemma Prim2SF_not_nan x : is_nan x = false → Prim2SF x ≠ S754_nan.
Proof.
  unfold is_nan. rewrite FloatAxioms.eqb_spec. intros H Hnan.
  rewrite Hnan in H. discriminate.
Qed.

Lemma float_lt_le a b : (a <? b)%float = true → (a <=? b)%float = true.
Proof.
  rewrite ltb_spec, leb_spec. unfold SFltb, SFleb.
  by destruct (SFcompare _ _) as [[] |].
Qed.

Lemma float_not_lt_le a b :
  is_nan a = false → is_nan b = false →
  (b <? a)%float = false → (a <=? b)%float = true.
Proof.
  intros Ha%Prim2SF_not_nan Hb%Prim2SF_not_nan.
  rewrite ltb_spec, leb_spec. unfold SFltb, SFleb.
  destruct (SFcompare (Prim2SF b) (Prim2SF a)) as [c |] eqn:Hc.
  - rewrite (SFcompare_antisym _ _ _ Hc). by destruct c.
  - destruct (Prim2SF a), (Prim2SF b); try done; simpl in Hc; discriminate.
Qed.

(** ** The grouping cells *)

Lemma grouping_ok by_ value mpg order groups :
  grouping by_ value mpg order = Ok groups →
  Forall2 (λ c g, g.1 = c ∧ mean_of_partition by_ value mpg c = Ok g.2) order groups.
Proof.
  unfold grouping, group_means.
  destruct (distinct by_ mpg); simpl; [| discriminate].
  intros H%for_each_ok. eapply Forall2_impl; [exact H |].
  intros c [k avg] Hc. by apply group_mean_ok in Hc.
Qed.

(** The two ways a loop can meet a set of two groups. *)
Lemma iteration_order_two by_ mpg a b order :
  distinct by_ mpg = Ok {[ a; b ]} → a ≠ b →
  iteration_order by_ mpg order → order = [a; b] ∨ order = [b; a].
Proof.
  intros Hd Hne (groups & Hd' & Horder). rewrite Hd in Hd'. injection Hd' as <-.
  unfold iterates in Horder.
  assert (elements ({[ a; b ]} : gset string) ≡ₚ [a; b]) as Hab.
  { rewrite elements_union_singleton by set_solver. by rewrite elements_singleton. }
  rewrite Hab in Horder.
  by apply Permutation_sym, Permutation_length_2_inv in Horder.
Qed.



(** C4: the cylinder cell returns its (group, mean) pairs in ascending
    order of the group, the vehicle class cell in ascending order of the
    mean (NaN, which [<] does not order, set aside); each returns a
    rearrangement of the pairs its loop appended.  On [mpg_sample] the
    first is ascending in the group and not in the mean, the second
    ascending in the mean and not in the group. *)
Theorem groupings_sort_keys :
  (∀ (mpg : list record) (order : list string) (r : list (string * float)),
     CtyMpgByCyl mpg order = Ok r →
     Sorted (λ a b : string * float, String.leb a.1 b.1 = true) r
     ∧ ∃ groups, grouping "cyl" "cty" mpg order = Ok groups ∧ r ≡ₚ groups)
  ∧ (∀ (mpg : list record) (order : list string) (r : list (string * float)),
       HwyMpgByClass mpg order = Ok r →
       Forall (λ g : string * float, is_nan g.2 = false) r →
       Sorted (λ a b : string * float, (a.2 <=? b.2)%float = true) r
       ∧ ∃ groups, grouping "class" "hwy" mpg order = Ok groups ∧ r ≡ₚ groups)
  ∧ (∀ order, iteration_order "cyl" mpg_sample order →
       CtyMpgByCyl mpg_sample order = Ok [("4", 25%float); ("6", 15%float)]%string)
  ∧ (∀ order, iteration_order "class" mpg_sample order →
       HwyMpgByClass mpg_sample order = Ok [("suv", 20%float); ("compact", 30%float)]%string).
Proof.
  split_and!.
  - intros mpg order r. unfold CtyMpgByCyl.
    destruct (grouping "cyl" "cty" mpg order) as [groups |]; [| discriminate].
    simpl. intros [= <-]. split; [| exists groups; split; [done | apply sort_by_perm]].
    apply (sort_by_sorted String.ltb fst (λ a b, String.leb a b = true) (λ _, True)).
    + apply string_lt_le.
    + intros a b _ _. apply string_not_lt_le.
    + by apply Forall_true.
  - intros mpg order r. unfold HwyMpgByClass.
    destruct (grouping "class" "hwy" mpg order) as [groups |]; [| discriminate].
    simpl. intros [= <-] Hnan.
    split; [| exists groups; split; [done | apply sort_by_perm]].
    apply (sort_by_sorted PrimFloat.ltb snd (λ a b, (a <=? b)%float = true)
             (λ a, is_nan a = false)).
    + apply float_lt_le.
    + apply float_not_lt_le.
    + by rewrite sort_by_perm in Hnan.
  - intros order Horder.
    assert (distinct "cyl" mpg_sample = Ok {[ "4"; "6" ]}%string) as Hd.
    { unfold distinct.
      assert (for_each (λ d : record, getitem d "cyl") mpg_sample = Ok ["4"; "4"; "6"]%string)
        as -> by (vm_compute; reflexivity).
      simpl. apply (f_equal Ok). set_solver. }
    destruct (iteration_order_two _ _ _ _ _ Hd ltac:(done) Horder) as [-> | ->];
      vm_compute; reflexivity.
  - intros order Horder.
    assert (distinct "class" mpg_sample = Ok {[ "compact"; "suv" ]}%string) as Hd.
    { unfold distinct.
      assert (for_each (λ d : record, getitem d "class") mpg_sample
              = Ok ["compact"; "compact"; "suv"]%string)
        as -> by (vm_compute; reflexivity).
      simpl. apply (f_equal Ok). set_solver. }
    destruct (iteration_order_two _ _ _ _ _ Hd ltac:(done) Horder) as [-> | ->];
      vm_compute; reflexivity.
Qed.

Lemma groupings_sort_keys_witness :
  Sorted (λ a b : string * float, String.leb a.1 b.1 = true)
         [("4", 25%float); ("6", 15%float)]%string
  ∧ Sorted (λ a b : string * float, (a.2 <=? b.2)%float = true)
           [("suv", 20%float); ("compact", 30%float)]%string
  ∧ CtyMpgByCyl mpg_sample ["6"; "4"]%string = Ok [("4", 25%float); ("6", 15%float)]%string
  ∧ HwyMpgByClass mpg_sample ["compact"; "suv"]%string
    = Ok [("suv", 20%float); ("compact", 30%float)]%string.
Proof.
  split_and!.
  - exact (proj1 (proj1 groupings_sort_keys mpg_sample ["6"; "4"]%string _ eq_refl)).
  - refine (proj1 (proj1 (proj2 groupings_sort_keys) mpg_sample ["compact"; "suv"]%string
                     _ eq_refl _)).
    repeat constructor.
  - apply (proj1 (proj2 (proj2 groupings_sort_keys))).
    exists (list_to_set ["4"; "4"; "6"]%string). split; [reflexivity |].
    unfold iterates. by vm_compute (elements _).
  - apply (proj2 (proj2 (proj2 groupings_sort_keys))).
    exists (list_to_set ["compact"; "compact"; "suv"]%string). split; [reflexivity |].
    unfold iterates. vm_compute (elements _). apply Permutation_swap.
Defined.

(** ** The parser of floats accepts the grammar of floats *)





























(** ** Values that do not parse *)




(** The row that does not parse stops the cell with [float]'s error. *)
Example CtyMpgByCyl_bad (order : list string) :
  iteration_order "cyl" mpg_bad order →
  CtyMpgByCyl mpg_bad order
  = Raise (ValueError "could not convert string to float: 'n/a'").
Proof.
  intros Horder.
  assert (distinct "cyl" mpg_bad = Ok {[ "4"; "6" ]}%string) as Hd.
  { unfold distinct.
    assert (for_each (λ d : record, getitem d "cyl") mpg_bad = Ok ["4"; "6"]%string)
      as -> by (vm_compute; reflexivity).
    simpl. apply (f_equal Ok). set_solver. }
  destruct (iteration_order_two _ _ _ _ _ Hd ltac:(done) Horder) as [-> | ->];
    vm_compute; reflexivity.
Qed.

(** * Further properties of the notebooks' cells *)

Import Presidents.

(** ** Text as a list of characters *)

Lemma text_chars s : text (chars s) = s.
Proof. apply string_of_list_ascii_of_string. Qed.

Lemma chars_text l : chars (text l) = l.
Proof. apply list_ascii_of_string_of_list_ascii. Qed.

Lemma text_app l k : text (l ++ k) = text l +:+ text k.
Proof. induction l as [| c l IH]; simpl; [done | by rewrite IH]. Qed.

Lemma chars_app s t : chars (s +:+ t) = chars s ++ chars t.
Proof. induction s as [| c s IH]; simpl; [done | by rewrite IH]. Qed.

Lemma length_chars s : length (chars s) = String.length s.
Proof. induction s as [| c s IH]; simpl; [done | by rewrite IH]. Qed.

Lemma length_text l : String.length (text l) = length l.
Proof. induction l as [| c l IH]; simpl; [done | by rewrite IH]. Qed.

Lemma chars_inj s t : chars s = chars t → s = t.
Proof. intros H. by rewrite <- (text_chars s), H, text_chars. Qed.

(** ** Indexing and slicing *)

Lemma clip_bounds (len : Z) (bound : option Z) (dflt : Z) :
  0 ≤ len → 0 ≤ dflt ≤ len → 0 ≤ clip len bound dflt ≤ len.
Proof. intros ??. unfold clip. destruct bound as [i |]; [| done]. case_match; lia. Qed.

Lemma slice_split_list {A} (x : list A) (i : Z) :
  slice x None (Some i) ++ slice x (Some i) None = x.
Proof.
  unfold slice. set (len := Z.of_nat (length x)).
  pose proof (clip_bounds len (Some i) len) as Hc.
  change (clip len None 0) with 0. change (clip len None len) with len.
  replace (clip len (Some i) 0) with (clip len (Some i) len) by done.
  set (c := clip len (Some i) len) in *.
  assert (0 ≤ c ≤ len) as [??] by (apply Hc; lia).
  rewrite Z.sub_0_r. change (Z.to_nat 0) with 0%nat. rewrite drop_0.
  rewrite (take_ge (drop _ _)) by (rewrite length_drop; lia).
  apply take_drop.
Qed.

(** X1: for every text and every position, negative or beyond the end
    as it may be, the slice up to the position followed by the slice
    from it is the text. *)
Theorem slice_split (s : string) (i : Z) :
  str_slice s None (Some i) +:+ str_slice s (Some i) None = s.
Proof.
  unfold str_slice. by rewrite <- text_app, slice_split_list, text_chars.
Qed.



Lemma item_last {A} kind (x : list A) (a : A) :
  item kind x (-1) = Ok a ↔ last x = Some a.
Proof.
  rewrite last_lookup. unfold item. simpl.
  destruct x as [| b x]; [done |].
  rewrite (proj2 (Z.leb_le 0 (-1 + Z.of_nat (length (b :: x))))) by (simpl; lia).
  replace (Z.to_nat (-1 + Z.of_nat (length (b :: x)))) with (pred (length (b :: x)))
    by (simpl; lia).
  destruct ((b :: x) !! pred (length (b :: x))); split; congruence.
Qed.



(** X3: on text that is not empty [s[0:1]] is [s[0]]; on the empty text
    the index raises [IndexError] where the slice is the empty text. *)
Theorem first_character (s : string) :
  (s ≠ ""%string → str_item s 0 = Ok (str_slice s (Some 0) (Some 1)))
  ∧ (s = ""%string →
     str_item s 0 = Raise (IndexError "string index out of range")
     ∧ str_slice s (Some 0) (Some 1) = ""%string).
Proof.
  split.
  - destruct s as [| c s]; [done |]. intros _.
    unfold str_item, str_slice, slice, item, clip.
    change (chars (String c s)) with (c :: chars s).
    set (len := Z.of_nat (length (c :: chars s))).
    assert (1 ≤ len) by (unfold len; simpl; lia).
    change (0 <? 0) with false. change (1 <? 0) with false. cbv iota.
    rewrite !Z.min_l by lia. reflexivity.
  - by intros ->.
Qed.

Lemma first_character_witness :
  str_item "This is a string" 0 = Ok (str_slice "This is a string" (Some 0) (Some 1)).
Proof. exact (proj1 (first_character "This is a string") ltac:(done)). Defined.

(** X4: bounds that are negative and within the text count from its
    end: [s[a:b]] is [s[a + len(s) : b + len(s)]], of length
    [max(0, b - a)]. *)
Theorem slice_from_the_end (s : string) (a b : Z) :
  - Z.of_nat (String.length s) ≤ a < 0 →
  - Z.of_nat (String.length s) ≤ b < 0 →
  str_slice s (Some a) (Some b)
  = str_slice s (Some (a + Z.of_nat (String.length s)))
                (Some (b + Z.of_nat (String.length s)))
  ∧ Z.of_nat (String.length (str_slice s (Some a) (Some b))) = Z.max 0 (b - a).
Proof.
  intros Ha Hb.
  pose proof (length_chars s) as Hlen. pose proof length_text as Htext.
  unfold str_slice, slice, clip. rewrite Hlen.
  set (len := Z.of_nat (String.length s)) in *.
  rewrite (proj2 (Z.ltb_lt a 0)), (proj2 (Z.ltb_lt b 0)) by lia.
  rewrite (proj2 (Z.ltb_ge (a + len) 0)), (proj2 (Z.ltb_ge (b + len) 0)) by lia.
  rewrite !Z.max_r, !Z.min_l by lia. split; [done |].
  rewrite Htext, length_take, length_drop, Hlen. fold len. lia.
Qed.

Lemma slice_from_the_end_witness :
  str_slice "This is a string" (Some (-4)) (Some (-2))
  = str_slice "This is a string" (Some (-4 + 16)) (Some (-2 + 16))
  ∧ Z.of_nat (String.length (str_slice "This is a string" (Some (-4)) (Some (-2))))
    = Z.max 0 (-2 - -4).
Proof.
  exact (slice_from_the_end "This is a string" (-4) (-2)
           ltac:(by vm_compute) ltac:(by vm_compute)).
Defined.

(** ** [split] and [join] *)

Section Split.
Variable sep : list ascii.
Hypothesis sep_not_empty : sep ≠ [].

Lemma starts_with_app p s : starts_with p (p ++ s) = true.
Proof. induction p as [| c p IH]; simpl; [done |]. by rewrite bool_decide_eq_true_2, IH. Qed.

Lemma starts_with_inv p s : starts_with p s = true → ∃ r, s = p ++ r.
Proof.
  revert s. induction p as [| c p IH]; intros s; simpl; [by exists s |].
  destruct s as [| d s]; [done |].
  intros [->%bool_decide_eq_true Hp]%andb_true_iff.
  destruct (IH _ Hp) as [r ->]. by exists r.
Qed.

Lemma split_from_not_nil s skip piece : split_from sep s skip piece ≠ [].
Proof.
  revert skip piece. induction s as [| c s IH]; intros skip piece; simpl; [done |].
  destruct skip; [| apply IH]. destruct (starts_with sep (c :: s)); [done | apply IH].
Qed.

(** Passing over the rest of an occurrence. *)
Lemma split_from_skip p s :
  split_from sep (p ++ s) (length p) [] = split_from sep s 0 [].
Proof. induction p as [| c p IH]; simpl; [by destruct s | exact IH]. Qed.

Lemma join_chars_cons p ps :
  ps ≠ [] → join_chars sep (p :: ps) = p ++ sep ++ join_chars sep ps.
Proof. by destruct ps. Qed.

Lemma join_split_from s : ∀ piece,
  join_chars sep (split_from sep s 0 piece) = rev piece ++ s.
Proof.
  induction s as [s IH] using (induction_ltof1 _ (@length ascii)). unfold ltof in IH.
  intros piece. destruct s as [| c s]; simpl; [by rewrite app_nil_r |].
  destruct (starts_with sep (c :: s)) eqn:Hs.
  - apply starts_with_inv in Hs as [r Hr].
    assert (∃ sep', sep = c :: sep' ∧ s = sep' ++ r) as (sep' & Hsep & ->).
    { destruct sep as [| c' sep']; [done |]. injection Hr as <- ->. by eexists. }
    replace (length sep - 1)%nat with (length sep') by (rewrite Hsep; simpl; lia).
    rewrite split_from_skip.
    rewrite join_chars_cons by apply split_from_not_nil.
    rewrite (IH r) by (simpl; rewrite length_app; lia). simpl.
    by rewrite Hr.
  - rewrite (IH s) by (simpl; lia). simpl. by rewrite <- app_assoc.
Qed.

Lemma starts_with_mono t u : starts_with sep t = true → starts_with sep (t ++ u) = true.
Proof.
  intros [r ->]%starts_with_inv. rewrite <- app_assoc. apply starts_with_app.
Qed.

Lemma contains_false t :
  contains sep t = false ↔ ∀ i, (i ≤ length t)%nat → starts_with sep (drop i t) = false.
Proof.
  induction t as [| c t IH]; simpl.
  - rewrite orb_false_r. split.
    + intros H i Hi. by replace i with 0%nat by lia.
    + intros H. apply (H 0%nat). lia.
  - rewrite orb_false_iff, IH. split.
    + intros [H0 H] [| i] Hi; [done |]. apply H. lia.
    + intros H. split; [apply (H 0%nat); lia |].
      intros i Hi. apply (H (S i)). lia.
Qed.

Lemma starts_with_nil : starts_with sep [] = false.
Proof. by destruct sep. Qed.

Lemma no_start_contains piece s :
  no_start sep (length piece) (rev piece ++ s) →
  (s = [] ∨ starts_with sep s = true) →
  contains sep (rev piece) = false.
Proof.
  intros Hno Hs. apply contains_false. intros i Hi. rewrite length_rev in Hi.
  destruct (decide (i = length piece)) as [-> | Hne].
  - rewrite <- (length_rev piece), drop_all. apply starts_with_nil.
  - destruct (starts_with sep (drop i (rev piece))) eqn:Hst; [| done].
    apply (starts_with_mono _ s) in Hst.
    rewrite <- drop_app_le in Hst by (rewrite length_rev; lia).
    rewrite Hno in Hst by lia. done.
Qed.

Lemma pieces_without_sep s : ∀ piece,
  no_start sep (length piece) (rev piece ++ s) →
  Forall (λ p, contains sep p = false) (split_from sep s 0 piece).
Proof.
  induction s as [s IH] using (induction_ltof1 _ (@length ascii)). unfold ltof in IH.
  intros piece Hno. destruct s as [| c s]; simpl.
  - constructor; [| constructor]. apply (no_start_contains piece []); auto.
  - destruct (starts_with sep (c :: s)) eqn:Hs.
    + constructor; [by apply (no_start_contains piece (c :: s)); auto |].
      apply starts_with_inv in Hs as [r Hr].
      assert (∃ sep', sep = c :: sep' ∧ s = sep' ++ r) as (sep' & Hsep & ->).
      { destruct sep as [| c' sep']; [done |]. injection Hr as <- ->. by eexists. }
      replace (length sep - 1)%nat with (length sep') by (rewrite Hsep; simpl; lia).
      rewrite split_from_skip. apply IH; [simpl; rewrite length_app; lia |].
      intros i Hi. simpl in Hi. lia.
    + apply IH; [simpl; lia |]. simpl. rewrite <- app_assoc. simpl.
      intros i Hi. destruct (decide (i = length piece)) as [-> | Hne].
      * by rewrite <- (length_rev piece), drop_app_length.
      * apply Hno. lia.
Qed.

Lemma split_from_without_sep s : ∀ piece,
  contains sep s = false → split_from sep s 0 piece = [rev piece ++ s].
Proof.
  induction s as [| c s IH]; intros piece; simpl; [by rewrite app_nil_r |].
  intros [-> Hs]%orb_false_iff. rewrite IH by done. simpl. by rewrite <- app_assoc.
Qed.

Lemma split_from_head s : ∀ piece,
  ∃ q t, hd_error (split_from sep s 0 piece) = Some (rev piece ++ q) ∧ s = q ++ t.
Proof.
  induction s as [| c s IH]; intros piece; simpl.
  - exists [], []. by rewrite app_nil_r.
  - destruct (starts_with sep (c :: s)).
    + exists [], (c :: s). by rewrite app_nil_r.
    + destruct (IH (c :: piece)) as (q & t & Hq & ->).
      exists (c :: q), t. simpl in Hq. by rewrite <- app_assoc in Hq.
Qed.

Lemma split_from_last s : ∀ piece,
  ∃ u l, last (split_from sep s 0 piece) = Some l ∧ rev piece ++ s = u ++ l.
Proof.
  induction s as [s IH] using (induction_ltof1 _ (@length ascii)). unfold ltof in IH.
  intros piece. destruct s as [| c s]; simpl.
  - exists [], (rev piece). by rewrite app_nil_r.
  - destruct (starts_with sep (c :: s)) eqn:Hs.
    + apply starts_with_inv in Hs as [r Hr].
      assert (∃ sep', sep = c :: sep' ∧ s = sep' ++ r) as (sep' & Hsep & ->).
      { destruct sep as [| c' sep']; [done |]. injection Hr as <- ->. by eexists. }
      replace (length sep - 1)%nat with (length sep') by (rewrite Hsep; simpl; lia).
      rewrite split_from_skip.
      destruct (IH r) with (piece := @nil ascii) as (u & l & Hl & Hu);
        [simpl; rewrite length_app; lia |].
      simpl in Hu. subst r. exists (rev piece ++ c :: sep' ++ u), l. split.
      * by rewrite last_cons, Hl.
      * rewrite <- !app_assoc. simpl. by rewrite <- ?app_assoc.
    + destruct (IH s) with (piece := c :: piece) as (u & l & Hl & Hu); [simpl; lia |].
      exists u, l. split; [done |]. simpl in Hu. by rewrite <- app_assoc in Hu.
Qed.
End Split.

(** X6: for a separator that is not empty [s.split(sep)] returns a
    list that is not empty and that [sep.join] turns back into [s]; for
    the empty separator it raises [ValueError]. *)
Theorem join_split (s sep : string) :
  (sep ≠ ""%string →
   ∃ pieces, split s sep = Ok pieces ∧ pieces ≠ [] ∧ join sep pieces = s)
  ∧ (sep = ""%string → split s sep = Raise (ValueError "empty separator")).
Proof.
  split; [| by intros ->].
  intros Hsep. unfold split, join.
  destruct (chars sep) as [| c sep'] eqn:Hc.
  { destruct Hsep. apply chars_inj. by rewrite Hc. }
  eexists. split; [reflexivity |]. split.
  - intros H%fmap_nil_inv. by eapply split_from_not_nil.
  - rewrite <- list_fmap_compose.
    assert (∀ l : list (list ascii), chars ∘ text <$> l = l) as ->.
    { induction l as [| p l IH]; [done |]. cbn. f_equal; [apply chars_text | exact IH]. }
    rewrite <- Hc, join_split_from by (by rewrite Hc). simpl. apply text_chars.
Qed.

Lemma join_split_witness :
  ∃ pieces, split "Christopher Arthur Hansen Brooks" " " = Ok pieces
            ∧ pieces ≠ [] ∧ join " " pieces = "Christopher Arthur Hansen Brooks"%string.
Proof.
  apply (join_split "Christopher Arthur Hansen Brooks" " "). done.
Defined.

(** X7: no piece of a split contains the separator, and the split has
    the text itself as its one piece exactly when the separator does not
    occur in the text. *)
Theorem split_pieces (s sep : string) (pieces : list string) :
  split s sep = Ok pieces →
  Forall (λ p, contains (chars sep) (chars p) = false) pieces
  ∧ (contains (chars sep) (chars s) = false ↔ pieces = [s]).
Proof.
  unfold split. destruct (chars sep) as [| c sep'] eqn:Hc; [done |]. intros [= <-].
  assert (c :: sep' ≠ []) as Hne by done.
  assert (Forall (λ p, contains (c :: sep') (chars p) = false)
            (text <$> split_from (c :: sep') (chars s) 0 [])) as Hall.
  { rewrite Forall_fmap. eapply Forall_impl.
    - apply (pieces_without_sep _ Hne). intros i Hi. simpl in Hi. lia.
    - intros p Hp. simpl. by rewrite chars_text. }
  split; [done |]. split.
  - intros Hs. rewrite split_from_without_sep by done. simpl. by rewrite text_chars.
  - intros Heq. rewrite Heq in Hall. by apply Forall_inv in Hall.
Qed.

Lemma split_pieces_witness :
  Forall (λ p, contains (chars " ") (chars p) = false)
         ["Christopher"; "Arthur"; "Hansen"; "Brooks"]%string
  ∧ (contains (chars " ") (chars "Christopher Arthur Hansen Brooks") = false
     ↔ ["Christopher"; "Arthur"; "Hansen"; "Brooks"]%string
       = ["Christopher Arthur Hansen Brooks"]%string).
Proof.
  exact (split_pieces "Christopher Arthur Hansen Brooks" " " _ eq_refl).
Defined.

(** X8: [s.split(' ')[0]] and [s.split(' ')[-1]] return for every
    text, never raising [IndexError]: the first word starts the text,
    the last word ends it, neither contains a space, and both are the
    whole text when it has no space. *)
Theorem first_and_last_word (s : string) :
  ∃ first last,
    first_word s = Ok first ∧ last_word s = Ok last
    ∧ (∃ t, s = first +:+ t) ∧ (∃ u, s = u +:+ last)
    ∧ contains (chars " ") (chars first) = false
    ∧ contains (chars " ") (chars last) = false
    ∧ (contains (chars " ") (chars s) = false → first = s ∧ last = s).
Proof.
  unfold first_word, last_word, split. simpl.
  assert ([" "%char] ≠ []) as Hne by done.
  assert (Forall (λ p, contains [" "%char] p = false)
            (split_from [" "%char] (chars s) 0 [])) as Hall.
  { apply (pieces_without_sep _ Hne). intros i Hi. simpl in Hi. lia. }
  pose proof (split_from_without_sep [" "%char] (chars s) []) as Hone.
  destruct (split_from_head [" "%char] (chars s) []) as (q & t & Hq & Hs).
  destruct (split_from_last _ Hne (chars s) []) as (u & l & Hl & Hu).
  simpl in Hq, Hu. set (pieces := split_from [" "%char] (chars s) 0 []) in *.
  exists (text q), (text l). simpl.
  assert (item "list" (text <$> pieces) 0 = Ok (text q)) as ->.
  { unfold item. simpl. destruct pieces; [done |]. simpl in *. by injection Hq as ->. }
  assert (item "list" (text <$> pieces) (-1) = Ok (text l)) as Hlast.
  { apply item_last. by rewrite fmap_last, Hl. }
  rewrite Hlast. split_and!; try done.
  - exists (text t). by rewrite <- text_app, <- Hs, text_chars.
  - exists (text u). by rewrite <- text_app, <- Hu, text_chars.
  - rewrite Forall_forall in Hall. rewrite chars_text. apply Hall.
    by apply head_Some_elem_of.
  - rewrite Forall_forall in Hall. rewrite chars_text. apply Hall.
    by apply last_Some_elem_of.
  - intros Hno. apply Hone in Hno. subst pieces. rewrite Hno in Hq, Hl.
    simpl in Hq, Hl. injection Hq as <-. injection Hl as <-.
    by rewrite text_chars.
Qed.

(** ** Dictionaries *)

Section Dict.
Context {V : Type}.
Implicit Types (d : list (string * V)) (k : string) (v : V).

Lemma lookup_key_None d k : k ∉ keys d → lookup_key d k = Raise (KeyError k).
Proof.
  induction d as [| [k' v'] d IH]; simpl; [done |].
  intros Hk. apply not_elem_of_cons in Hk as [??].
  rewrite decide_False by done. by apply IH.
Qed.

Lemma lookup_key_elem d k : k ∈ keys d → returns (lookup_key d k).
Proof.
  induction d as [| [k' v'] d IH]; simpl; [by intros ?%elem_of_nil |].
  intros Hk. destruct (decide (k' = k)); [by eexists |].
  apply elem_of_cons in Hk as [? | ?]; [congruence | by apply IH].
Qed.

Lemma keys_set_key d k v :
  keys (set_key d k v) = if decide (k ∈ keys d) then keys d else keys d ++ [k].
Proof.
  induction d as [| [k' v'] d IH].
  - destruct (decide (k ∈ keys (@nil (string * V)))) as [H%elem_of_nil | _]; done.
  - change (keys ((k', v') :: d)) with (k' :: keys d). cbn [set_key].
    destruct (decide (k' = k)) as [-> | Hne].
    + rewrite decide_True; [done | left].
    + change (keys ((k', v') :: set_key d k v)) with (k' :: keys (set_key d k v)).
      rewrite IH. destruct (decide (k ∈ keys d)) as [Hin | Hnin].
      * rewrite decide_True; [done | by right].
      * rewrite decide_False; [done |]. intros [? | ?]%elem_of_cons; [congruence | done].
Qed.

Lemma lookup_set_key d k v : lookup_key (set_key d k v) k = Ok v.
Proof.
  induction d as [| [k' v'] d IH]; simpl; [by rewrite decide_True |].
  destruct (decide (k' = k)) as [-> | Hne]; simpl.
  - by rewrite decide_True.
  - by rewrite decide_False.
Qed.

Lemma lookup_set_key_ne d k k' v :
  k' ≠ k → lookup_key (set_key d k v) k' = lookup_key d k'.
Proof.
  intros Hne. induction d as [| [k0 v0] d IH]; simpl.
  - by rewrite decide_False.
  - destruct (decide (k0 = k)) as [-> | Hne0]; simpl.
    + by rewrite !decide_False.
    + destruct (decide (k0 = k')); [done | exact IH].
Qed.

Lemma set_key_NoDup d k v : NoDup (keys d) → NoDup (keys (set_key d k v)).
Proof.
  intros Hd. rewrite keys_set_key. case_decide; [done |].
  apply NoDup_app. split_and!; [done | | apply NoDup_singleton].
  intros k' Hk' ->%list_elem_of_singleton. done.
Qed.

Lemma dict_of_NoDup (items : list (string * V)) : NoDup (keys (dict_of items)).
Proof.
  unfold dict_of.
  assert (∀ d, NoDup (keys d) →
            NoDup (keys (fold_left (λ d kv, set_key d kv.1 kv.2) items d))) as H.
  { induction items as [| [k v] items IH]; intros d Hd; simpl; [done |].
    apply IH. by apply set_key_NoDup. }
  apply H. constructor.
Qed.
End Dict.

(** X9: after [d[k] = v], [d[k]] is [v] and every other key reads as
    before; a key already in [d] keeps its place and a new one goes
    last, so keys stay distinct; and [d[k']] returns exactly for the keys
    of [d], raising the [KeyError] of the key for any other. *)
Theorem set_key_then_lookup {V} (d : list (string * V)) (k : string) (v : V) :
  lookup_key (set_key d k v) k = Ok v
  ∧ (∀ k', k' ≠ k → lookup_key (set_key d k v) k' = lookup_key d k')
  ∧ keys (set_key d k v) = (if decide (k ∈ keys d) then keys d else keys d ++ [k])
  ∧ (NoDup (keys d) → NoDup (keys (set_key d k v)))
  ∧ (∀ k', returns (lookup_key d k') ↔ k' ∈ keys d)
  ∧ (∀ k', k' ∉ keys d → lookup_key d k' = Raise (KeyError k')).
Proof.
  split_and!.
  - apply lookup_set_key.
  - intros k'. apply lookup_set_key_ne.
  - apply keys_set_key.
  - apply set_key_NoDup.
  - intros k'. split; [| apply lookup_key_elem].
    intros [v' Hv']. destruct (decide (k' ∈ keys d)); [done |].
    by rewrite lookup_key_None in Hv'.
  - intros k'. apply lookup_key_None.
Qed.

Lemma set_key_then_lookup_witness :
  NoDup (keys (set_key x_emails "Kevyn Collins-Thompson" None))
  ∧ lookup_key (set_key x_emails "Kevyn Collins-Thompson" None) "Bill Gates"
    = lookup_key x_emails "Bill Gates".
Proof.
  split.
  - apply (proj1 (proj2 (proj2 (proj2
       (set_key_then_lookup x_emails "Kevyn Collins-Thompson" None))))).
    apply (dict_of_NoDup (V := option string)).
  - apply (proj1 (proj2 (set_key_then_lookup x_emails "Kevyn Collins-Thompson" None))).
    done.
Defined.

(** X10: over a dictionary, whose keys are distinct, the loop that
    prints [x[name]] for each [name in x] never raises [KeyError] and
    prints what the loop over [x.values()] prints; the loop over
    [x.items()] prints two lines for each entry. *)
Theorem loops_over_a_dict (x : emails) :
  NoDup (keys x) →
  print_by_name x = Ok (print_values x)
  ∧ length (print_values x) = length x
  ∧ length (print_items x) = (2 * length x)%nat.
Proof.
  intros Hx. unfold print_by_name, print_values. split_and!.
  - assert (∀ d : emails, (∀ k, k ∈ keys x → lookup_key d k = lookup_key x k) →
              for_each (λ name, email ← lookup_key d name; Ok (str_email email)) (keys x)
              = Ok (str_email <$> values x)) as H; [| by apply H].
    induction x as [| [k v] x IH]; intros d Hd; simpl; [done |].
    apply NoDup_cons in Hx as [Hk Hx].
    rewrite (Hd k) by left. simpl. rewrite decide_True by done. simpl.
    rewrite (IH Hx); [done |]. intros k' Hk'. rewrite (Hd k') by (by right). simpl.
    rewrite decide_False; [done |]. by intros ->.
  - unfold values. by rewrite !length_fmap.
  - unfold print_items. clear Hx. induction x as [| kv x IH]; [done |].
    cbn in *. rewrite IH. lia.
Qed.

Lemma loops_over_a_dict_witness :
  print_by_name (set_key x_emails "Kevyn Collins-Thompson" None)
  = Ok (print_values (set_key x_emails "Kevyn Collins-Thompson" None)).
Proof.
  apply (loops_over_a_dict (set_key x_emails "Kevyn Collins-Thompson" None)).
  apply (set_key_NoDup (V := option string)), (dict_of_NoDup (V := option string)).
Defined.

(** ** The two loops over a list *)

Lemma for_print_fmap (x : list obj) : for_print x = str <$> x.
Proof.
  unfold for_print.
  assert (∀ out, fold_left (λ out item, out ++ [str item]) x out = out ++ (str <$> x)) as H.
  { induction x as [| v x IH]; intros out; simpl; [by rewrite app_nil_r |].
    by rewrite IH, <- app_assoc. }
  apply H.
Qed.

Lemma while_print_from (x : list obj) : ∀ (fuel i : nat) (out : list string),
  (i ≤ length x)%nat → (length x - i < fuel)%nat →
  while_print fuel x (Z.of_nat i) out = Some (out ++ (str <$> drop i x), Ok ()).
Proof.
  induction fuel as [| fuel IH]; intros i out Hi Hfuel; [lia |]. simpl.
  destruct (decide (Z.of_nat i ≠ Z.of_nat (length x))) as [Hne | Heq].
  - destruct (lookup_lt_is_Some_2 x i) as [v Hv]; [lia |].
    unfold item. rewrite (proj2 (Z.ltb_ge (Z.of_nat i) 0)) by lia.
    rewrite (proj2 (Z.leb_le 0 (Z.of_nat i))) by lia. rewrite Nat2Z.id, Hv.
    replace (Z.of_nat i + 1) with (Z.of_nat (S i)) by lia.
    rewrite IH by lia. rewrite (drop_S _ _ _ Hv). simpl. by rewrite <- app_assoc.
  - assert (i = length x) as -> by lia. by rewrite drop_all, app_nil_r.
Qed.

(** X11: the [while] loop over the indices ends, after [len(x)] turns,
    without an [IndexError], and has printed what the [for] loop over
    the items prints: the text of each item in order. *)
Theorem while_loop_prints_the_list (x : list obj) (fuel : nat) :
  (length x < fuel)%nat →
  while_cell fuel x = Some (for_print x, Ok ())
  ∧ for_print x = str <$> x.
Proof.
  intros Hfuel. split; [| apply for_print_fmap].
  unfold while_cell. change 0 with (Z.of_nat 0).
  rewrite (while_print_from x fuel 0 []) by lia.
  by rewrite for_print_fmap.
Qed.

Lemma while_loop_prints_the_list_witness :
  while_cell 6 [Int 1; Str "a"; Int 2; Str "b"; Float 3.3]
  = Some (for_print [Int 1; Str "a"; Int 2; Str "b"; Float 3.3], Ok ())
  ∧ for_print [Int 1; Str "a"; Int 2; Str "b"; Float 3.3]
    = str <$> [Int 1; Str "a"; Int 2; Str "b"; Float 3.3].
Proof.
  apply (while_loop_prints_the_list [Int 1; Str "a"; Int 2; Str "b"; Float 3.3] 6).
  simpl. lia.
Defined.

(** ** The average over all rows *)

Lemma partition_by_all (by_ c : string) (mpg : list record) :
  Forall (λ d : record, d !! by_ = Some c) mpg → partition_by by_ c mpg = mpg.
Proof.
  unfold partition_by. induction 1 as [| d mpg Hd _ IH]; [done |].
  by rewrite filter_cons_True, IH.
Qed.

Lemma truediv_raises summpg count e :
  truediv summpg count = Raise e →
  (count = 0 ∧ e = ZeroDivisionError "division by zero")
  ∨ (maxsize < Z.abs count ∧ ∃ msg, e = OverflowError msg).
Proof.
  unfold truediv. case_decide as H0; [intros [= <-]; by left |].
  unfold float_of_int.
  destruct (Z.leb_spec (2 ^ 1024 - 2 ^ 970) (Z.abs count)) as [Hbig |]; [| done].
  simpl. intros [= <-]. right. split; [| by eexists].
  eapply Z.lt_le_trans; [| exact Hbig]. reflexivity.
Qed.



(** X13: when every row has the same text [c] in the grouping column,
    the grouping loop gives the one pair of [c] and the average over all
    rows, and raises what that average raises. *)
Theorem one_group_is_the_average (by_ value c : string) (mpg : list record)
    (order : list string) :
  mpg ≠ [] →
  Forall (λ d : record, d !! by_ = Some c) mpg →
  iteration_order by_ mpg order →
  grouping by_ value mpg order = (avg ← average value mpg; Ok [(c, avg)]).
Proof.
  intros Hne Hall Horder.
  assert (Forall (λ d : record, is_Some (d !! by_)) mpg) as Hby.
  { eapply Forall_impl; [exact Hall | by eexists]. }
  assert (order = [c]) as ->.
  { assert (∀ k, k ∈ order ↔ k = c) as Hk.
    { intros k. rewrite (iteration_order_elem by_ mpg order k Horder). split.
      - intros (d & Hd & Hdk). rewrite Forall_forall in Hall.
        specialize (Hall d Hd). congruence.
      - intros ->. destruct mpg as [| d mpg]; [done |]. exists d.
        split; [left | by apply Forall_inv in Hall]. }
    destruct Horder as (groups & _ & Hperm). unfold iterates in Hperm.
    assert (NoDup order) as Hnd by (rewrite Hperm; apply NoDup_elements).
    destruct order as [| k [| k' order]].
    - assert (c ∈ @nil string) as ?%elem_of_nil by (by apply Hk). done.
    - f_equal. apply Hk. left.
    - assert (k = c) as -> by (apply Hk; left).
      assert (k' = c) as -> by (apply Hk; right; left).
      apply NoDup_cons in Hnd as [Hnin _]. destruct Hnin. left. }
  unfold grouping, group_means.
  destruct (distinct_returns by_ mpg Hby) as [groups ->].
  cbn [mbind result_bind for_each]. rewrite group_mean_partition by done.
  unfold mean_of_partition, average, arithmetic_mean.
  rewrite partition_by_all by done.
  destruct (for_each (parse_entry value) mpg) as [xs |] eqn:Hxs; simpl; [| done].
  rewrite (for_each_length _ _ _ Hxs).
  by destruct (truediv _ _).
Qed.

Lemma one_group_is_the_average_witness :
  grouping "cyl" "cty" [ {[ "cyl" := "4"; "cty" := "20" ]}; {[ "cyl" := "4"; "cty" := "30" ]} ]%string
           ["4"]%string
  = (avg ← average "cty" [ {[ "cyl" := "4"; "cty" := "20" ]};
                            {[ "cyl" := "4"; "cty" := "30" ]} ]%string;
     Ok [("4"%string, avg)]).
Proof.
  apply one_group_is_the_average.
  - done.
  - repeat constructor.
  - exists (list_to_set ["4"; "4"]%string). split; [reflexivity |].
    unfold iterates. by vm_compute (elements _).
Defined.

(** X14: the grouping loop never raises [ZeroDivisionError], since
    every group it meets comes from a row; on no rows it returns the
    empty list. *)
Theorem grouping_never_divides_by_zero (by_ value : string) (mpg : list record)
    (order : list string) :
  iteration_order by_ mpg order →
  (∀ msg, grouping by_ value mpg order ≠ Raise (ZeroDivisionError msg))
  ∧ (mpg = [] → grouping by_ value mpg order = Ok []).
Proof.
  intros Horder. pose proof Horder as (groups & Hd & Hiter). split.
  - intros msg. unfold grouping, group_means. rewrite Hd. simpl.
    intros (c & Hc & Hraise)%for_each_raise.
    assert (Forall (λ d : record, is_Some (d !! by_)) mpg) as Hby.
    { unfold distinct in Hd.
      destruct (for_each _ mpg) as [vals |] eqn:Hvals; [| discriminate].
      assert (returns (for_each (λ d : record, getitem d by_) mpg)) as Hret by (by eexists).
      rewrite for_each_returns in Hret. eapply Forall_impl; [exact Hret |].
      intros d [v Hv]. unfold getitem in Hv. destruct (d !! by_); [by eexists | done]. }
    rewrite group_mean_partition in Hraise by done.
    unfold mean_of_partition in Hraise.
    destruct (for_each (parse_entry value) (partition_by by_ c mpg)) as [xs | e] eqn:Hxs;
      simpl in Hraise.
    + unfold arithmetic_mean in Hraise.
      destruct (truediv _ _) as [avg | e] eqn:Hdiv; [done |]. simpl in Hraise.
      destruct (truediv_raises _ _ _ Hdiv) as [[H0 _] | [_ [? ->]]]; [| done].
      apply for_each_length in Hxs.
      apply (iteration_order_elem by_ mpg order c Horder) in Hc as (d & Hd' & Hk).
      assert (d ∈ partition_by by_ c mpg) as Hpart
        by (unfold partition_by; by apply list_elem_of_filter).
      destruct (partition_by by_ c mpg); [by apply elem_of_nil in Hpart |].
      simpl in Hxs. lia.
    + injection Hraise as ->. apply for_each_raise in Hxs as (d & _ & Hparse).
      unfold parse_entry, getitem in Hparse.
      destruct (d !! value); simpl in Hparse; [| done].
      by destruct (float_of_str_raises _ _ Hparse).
  - intros ->. unfold iterates in Hiter. unfold distinct in Hd. cbn in Hd.
    injection Hd as <-. rewrite elements_empty in Hiter.
    apply Permutation_nil_r in Hiter as ->. done.
Qed.

Lemma grouping_never_divides_by_zero_witness :
  (∀ msg, grouping "cyl" "cty" mpg3 ["6"; "4"]%string ≠ Raise (ZeroDivisionError msg))
  ∧ (mpg3 = [] → grouping "cyl" "cty" mpg3 ["6"; "4"]%string = Ok []).
Proof.
  apply grouping_never_divides_by_zero.
  exists (list_to_set ["4"; "4"; "6"]%string). split; [reflexivity |].
  unfold iterates. by vm_compute (elements _).
Defined.

(** ** One pair for each group *)

Lemma grouping_keys by_ value mpg order groups :
  grouping by_ value mpg order = Ok groups → groups.*1 = order.
Proof.
  intros H%grouping_ok. induction H as [| c g order groups [Hc _] _ IH]; [done |].
  cbn. by rewrite Hc, IH.
Qed.

Lemma iteration_order_NoDup by_ mpg order : iteration_order by_ mpg order → NoDup order.
Proof. intros (groups & _ & ->). apply NoDup_elements. Qed.

(** X15: the cylinder cell returns one pair for each distinct text of
    the [cyl] column and no other: its groups are distinct and are the
    groups the loop met. *)
Theorem one_pair_for_each_group (mpg : list record) (order : list string)
    (r : list (string * float)) :
  iteration_order "cyl" mpg order →
  CtyMpgByCyl mpg order = Ok r →
  NoDup r.*1
  ∧ r.*1 ≡ₚ order
  ∧ (∀ k, k ∈ r.*1 ↔ ∃ d : record, d ∈ mpg ∧ d !! "cyl"%string = Some k).
Proof.
  intros Horder. unfold CtyMpgByCyl.
  destruct (grouping "cyl" "cty" mpg order) as [groups |] eqn:Hg; [| done].
  simpl. intros [= <-].
  assert ((sort_by String.ltb fst groups).*1 ≡ₚ order) as Hperm.
  { rewrite (sort_by_perm String.ltb fst groups). by rewrite (grouping_keys _ _ _ _ _ Hg). }
  split_and!; [| done |].
  - rewrite Hperm. by eapply iteration_order_NoDup.
  - intros k. rewrite Hperm. by apply iteration_order_elem.
Qed.

Lemma one_pair_for_each_group_witness :
  NoDup [("4", 25%float); ("6", 15%float)]%string.*1
  ∧ [("4", 25%float); ("6", 15%float)]%string.*1 ≡ₚ ["6"; "4"]%string
  ∧ (∀ k, k ∈ [("4", 25%float); ("6", 15%float)]%string.*1
          ↔ ∃ d : record, d ∈ mpg3 ∧ d !! "cyl"%string = Some k).
Proof.
  apply (one_pair_for_each_group mpg3 ["6"; "4"]%string); [| reflexivity].
  exists (list_to_set ["4"; "4"; "6"]%string). split; [reflexivity |].
  unfold iterates. by vm_compute (elements _).
Defined.

(** ** The order of the set does not show in the cylinder cell *)

Lemma ascii_compare_refl a : Ascii.compare a a = Eq.
Proof. apply N.compare_refl. Qed.

Lemma string_leb_trans a b c :
  String.leb a b = true → String.leb b c = true → String.leb a c = true.
Proof.
  unfold String.leb. revert b c.
  induction a as [| x a IH]; intros [| y b] [| z c]; simpl; try done.
  destruct (Ascii.compare x y) eqn:Hxy; try done.
  - apply Ascii.compare_eq_iff in Hxy as ->.
    destruct (Ascii.compare y z) eqn:Hyz; try done. apply IH.
  - destruct (Ascii.compare y z) eqn:Hyz; try done.
    + apply Ascii.compare_eq_iff in Hyz as ->. by rewrite Hxy.
    + unfold Ascii.compare in *. rewrite N.compare_lt_iff in Hxy, Hyz.
      assert (N_of_ascii x < N_of_ascii z)%N as ->%N.compare_lt_iff by lia. done.
Qed.

Lemma string_leb_refl a : String.leb a a = true.
Proof. by destruct (String.leb_total a a). Qed.

Lemma sorted_by_group_unique (l1 l2 : list (string * float)) :
  NoDup l1.*1 →
  Sorted (λ a b : string * float, String.leb a.1 b.1 = true) l1 →
  Sorted (λ a b : string * float, String.leb a.1 b.1 = true) l2 →
  l1 ≡ₚ l2 → l1 = l2.
Proof.
  intros Hnd Hs1 Hs2 Hperm.
  eapply (Sorted_unique_strong _ l1 l2); [| exact Hs1 | exact Hs2 | exact Hperm].
  Unshelve. 2: { intros a b c. apply string_leb_trans. }
  - intros a b Ha Hb Hab Hba. rewrite <- Hperm in Hb.
    assert (a.1 = b.1) as Hk by (by apply String.leb_antisym).
    apply list_elem_of_lookup in Ha as [i Hi]. apply list_elem_of_lookup in Hb as [j Hj].
    assert (i = j) as ->; [| congruence].
    eapply NoDup_lookup; [exact Hnd | |].
    + by rewrite list_lookup_fmap, Hi.
    + rewrite list_lookup_fmap, Hj. simpl. by rewrite Hk.
Qed.

Lemma grouping_of_order by_ value mpg order groups :
  grouping by_ value mpg order = Ok groups →
  groups
  = (λ c, (c, match mean_of_partition by_ value mpg c with Ok avg => avg | Raise _ => 0%float end))
      <$> order.
Proof.
  intros H%grouping_ok. induction H as [| c [k avg] order groups [Hc Hm] _ IH]; [done |].
  cbn in *. by rewrite Hm, Hc, IH.
Qed.

Lemma grouping_returns_any_order by_ value mpg order1 order2 :
  iteration_order by_ mpg order1 → iteration_order by_ mpg order2 →
  returns (grouping by_ value mpg order1) → returns (grouping by_ value mpg order2).
Proof.
  intros H1 H2. pose proof H1 as (groups & Hd & _).
  unfold grouping, group_means. rewrite Hd. simpl.
  rewrite !for_each_returns, !Forall_forall. intros Hall c Hc. apply Hall.
  apply (iteration_order_elem by_ mpg order1 c H1).
  by apply (iteration_order_elem by_ mpg order2 c H2).
Qed.

(** X16: what the cylinder cell returns does not depend on the order
    in which the set of cylinders is iterated. *)
Theorem cylinder_cell_ignores_set_order (mpg : list record) (order1 order2 : list string)
    (r : list (string * float)) :
  iteration_order "cyl" mpg order1 →
  iteration_order "cyl" mpg order2 →
  CtyMpgByCyl mpg order1 = Ok r →
  CtyMpgByCyl mpg order2 = Ok r.
Proof.
  intros H1 H2. unfold CtyMpgByCyl.
  destruct (grouping "cyl" "cty" mpg order1) as [g1 |] eqn:Hg1; [| done].
  destruct (grouping_returns_any_order "cyl" "cty" mpg order1 order2 H1 H2) as [g2 Hg2];
    [by eexists |].
  rewrite Hg2. simpl. intros [= <-]. f_equal.
  assert (order1 ≡ₚ order2) as Hperm.
  { destruct H1 as (s1 & Hs1 & Hi1), H2 as (s2 & Hs2 & Hi2). unfold iterates in *.
    assert (s1 = s2) as -> by congruence. by rewrite Hi1, Hi2. }
  assert (g2 ≡ₚ g1) as Hg.
  { rewrite (grouping_of_order _ _ _ _ _ Hg1), (grouping_of_order _ _ _ _ _ Hg2).
    by rewrite Hperm. }
  assert (∀ g, Sorted (λ a b : string * float, String.leb a.1 b.1 = true)
                 (sort_by String.ltb fst g)) as Hsorted.
  { intros g.
    apply (sort_by_sorted String.ltb fst (λ a b, String.leb a b = true) (λ _, True)).
    - apply string_lt_le.
    - intros a b _ _. apply string_not_lt_le.
    - by apply Forall_true. }
  apply sorted_by_group_unique; [| apply Hsorted | apply Hsorted |].
  - rewrite (sort_by_perm String.ltb fst g2), Hg, (grouping_keys _ _ _ _ _ Hg1).
    by eapply iteration_order_NoDup.
  - by rewrite !(sort_by_perm String.ltb fst).
Qed.

Lemma cylinder_cell_ignores_set_order_witness :
  CtyMpgByCyl mpg3 ["4"; "6"]%string = Ok [("4", 25%float); ("6", 15%float)]%string.
Proof.
  apply (cylinder_cell_ignores_set_order mpg3 ["6"; "4"]%string ["4"; "6"]%string);
    [| | reflexivity].
  - exists (list_to_set ["4"; "4"; "6"]%string). split; [reflexivity |].
    unfold iterates. by vm_compute (elements _).
  - exists (list_to_set ["4"; "4"; "6"]%string). split; [reflexivity |].
    unfold iterates. vm_compute (elements _). apply Permutation_swap.
Defined.

(** ** Ties in the vehicle class cell *)

Lemma sort_by_no_lt {A K} (lt : K → K → bool) (key : A → K) (l : list A) :
  (∀ a b, a ∈ l → b ∈ l → lt (key a) (key b) = false) → sort_by lt key l = l.
Proof.
  induction l as [| x l IH]; intros Hl; simpl; [done |].
  rewrite IH by (intros a b Ha Hb; apply Hl; by right).
  destruct l as [| y l]; simpl; [done |].
  rewrite Hl; [done | right; left | left].
Qed.

(** X17: when no mean is less than another, the vehicle class cell
    returns the pairs as the loop appended them, that is in the order in
    which the set of classes was iterated: the sort is stable and ties
    are not broken by the class. *)
Theorem tied_classes_keep_set_order (mpg : list record) (order : list string)
    (appended : list (string * float)) :
  grouping "class" "hwy" mpg order = Ok appended →
  (∀ a b, a ∈ appended → b ∈ appended → (a.2 <? b.2)%float = false) →
  HwyMpgByClass mpg order = Ok appended ∧ appended.*1 = order.
Proof.
  intros Hg Hties. unfold HwyMpgByClass. rewrite Hg. simpl. split.
  - f_equal. by apply sort_by_no_lt.
  - by eapply grouping_keys.
Qed.

Lemma tied_classes_keep_set_order_witness :
  (HwyMpgByClass mpg_tied ["suv"; "compact"]%string
   = Ok [("suv", 30%float); ("compact", 30%float)]%string
   ∧ [("suv", 30%float); ("compact", 30%float)]%string.*1 = ["suv"; "compact"]%string)
  ∧ (HwyMpgByClass mpg_tied ["compact"; "suv"]%string
     = Ok [("compact", 30%float); ("suv", 30%float)]%string
     ∧ [("compact", 30%float); ("suv", 30%float)]%string.*1 = ["compact"; "suv"]%string).
Proof.
  split.
  - apply (tied_classes_keep_set_order mpg_tied ["suv"; "compact"]%string); [reflexivity |].
    intros a b Ha Hb. repeat (apply elem_of_cons in Ha as [-> | Ha]);
      repeat (apply elem_of_cons in Hb as [-> | Hb]);
      try reflexivity; by apply elem_of_nil in Ha || by apply elem_of_nil in Hb.
  - apply (tied_classes_keep_set_order mpg_tied ["compact"; "suv"]%string); [reflexivity |].
    intros a b Ha Hb. repeat (apply elem_of_cons in Ha as [-> | Ha]);
      repeat (apply elem_of_cons in Hb as [-> | Hb]);
      try reflexivity; by apply elem_of_nil in Ha || by apply elem_of_nil in Hb.
Defined.

(** ** The cheaper of two prices *)

Lemma float_lt_irrefl a : (a <? a)%float = false.
Proof.
  rewrite ltb_spec. unfold SFltb.
  destruct (SFcompare (Prim2SF a) (Prim2SF a)) as [[] |] eqn:Hc; try done.
  pose proof (SFcompare_antisym _ _ _ Hc) as Hc'. rewrite Hc in Hc'. done.
Qed.

Lemma float_le_refl a : is_nan a = false → (a <=? a)%float = true.
Proof. intros Ha. apply float_not_lt_le; [done | done | apply float_lt_irrefl]. Qed.

(** X18: [map(min, store1, store2)] is as long as the shorter list;
    its item at a place is one of the two prices there, and, NaN apart,
    at most either. *)
Theorem cheapest_is_the_lower_price (store1 store2 : list float) :
  length (cheapest store1 store2) = (length store1 `min` length store2)%nat
  ∧ ∀ (i : nat) (a b : float), store1 !! i = Some a → store2 !! i = Some b →
      ∃ m, cheapest store1 store2 !! i = Some m
           ∧ (m = a ∨ m = b)
           ∧ (is_nan a = false → is_nan b = false →
              (m <=? a)%float = true ∧ (m <=? b)%float = true).
Proof.
  unfold cheapest. split; [apply length_zip_with |].
  intros i a b Ha Hb. rewrite lookup_zip_with, Ha, Hb. simpl.
  eexists. split; [reflexivity |]. unfold min2.
  destruct (b <? a)%float eqn:Hlt.
  - split; [by right |]. intros _ Hnb. split; [by apply float_lt_le | by apply float_le_refl].
  - split; [by left |]. intros Hna Hnb.
    split; [by apply float_le_refl | by apply float_not_lt_le].
Qed.

Lemma cheapest_is_the_lower_price_witness :
  ∃ m, cheapest store1 store2 !! 3%nat = Some m
       ∧ (m = 2.34%float ∨ m = 2.01%float)
       ∧ (is_nan 2.34 = false → is_nan 2.01 = false →
          (m <=? 2.34)%float = true ∧ (m <=? 2.01)%float = true).
Proof.
  exact (proj2 (cheapest_is_the_lower_price store1 store2) 3%nat _ _ eq_refl eq_refl).
Defined.

(** ** The class [Person] *)

(** X19: [set_name] and [set_location] set their attribute and leave
    every other as it was, in either order; a new [Person] has the
    department of the class and no name; and after the two setters the
    sentence is the name, the location and the department of the class
    in the template. *)
Theorem person_attributes (self : gmap string string) (new_name new_location : string) :
  getattr (set_name self new_name) "name" = Some new_name
  ∧ getattr (set_location self new_location) "location" = Some new_location
  ∧ (∀ attr, attr ≠ "name"%string →
       getattr (set_name self new_name) attr = getattr self attr)
  ∧ (∀ attr, attr ≠ "location"%string →
       getattr (set_location self new_location) attr = getattr self attr)
  ∧ set_location (set_name self new_name) new_location
    = set_name (set_location self new_location) new_name
  ∧ getattr Person "department" = Some "School of Information"%string
  ∧ getattr Person "name" = None
  ∧ describe (set_location (set_name Person new_name) new_location)
    = Some (Ok (new_name +:+ " live in " +:+ new_location
                +:+ " and works in the department School of Information")).
Proof.
  split_and!.
  - unfold getattr, set_name. by rewrite lookup_insert_eq.
  - unfold getattr, set_location. by rewrite lookup_insert_eq.
  - intros attr Hne. unfold getattr, set_name. by rewrite lookup_insert_ne.
  - intros attr Hne. unfold getattr, set_location. by rewrite lookup_insert_ne.
  - unfold set_name, set_location. by apply insert_insert_ne.
  - reflexivity.
  - reflexivity.
  - assert (getattr (set_location (set_name Person new_name) new_location) "name"
            = Some new_name) as Hname.
    { unfold getattr, set_name, set_location.
      by rewrite lookup_insert_ne, lookup_insert_eq. }
    assert (getattr (set_location (set_name Person new_name) new_location) "location"
            = Some new_location) as Hloc.
    { unfold getattr, set_location. by rewrite lookup_insert_eq. }
    assert (getattr (set_location (set_name Person new_name) new_location) "department"
            = Some "School of Information"%string) as Hdep.
    { unfold getattr, set_name, set_location, Person.
      by rewrite !lookup_insert_ne, lookup_empty. }
    unfold describe. rewrite Hname, Hloc, Hdep. cbn [mbind option_bind].
    unfold format. simpl. do 2 f_equal.
    apply chars_inj. rewrite chars_text, !chars_app. reflexivity.
Qed.

Lemma person_attributes_witness :
  getattr (set_name Person "Christopher Brooks") "location" = getattr Person "location".
Proof.
  exact (proj1 (proj2 (proj2 (person_attributes Person "Christopher Brooks" "")))
           "location"%string ltac:(done)).
Defined.

(** ** Chaining [gt] and [lt] *)

(** X20: [s.gt(0.7).lt(0.9)] is, row by row, the negation of
    [s > 0.7], because [lt] compares the Booleans of [gt] with 0.9; it
    equals [s.gt(0.7) & s.lt(0.9)] only when every row is above 0.7 and
    not below 0.9. *)
Theorem gt_then_lt_negates (chance : Series float) :
  gt_then_lt chance = broadcast (λ x, negb (0.7 <? x)%float) chance
  ∧ index (gt_then_lt chance) = index chance
  ∧ (gt_and_lt chance = Some (gt_then_lt chance)
     ↔ Forall (λ r : Z * float, (0.7 <? r.2)%float = true ∧ (r.2 <? 0.9)%float = false)
              chance).
Proof.
  assert (gt_then_lt chance = broadcast (λ x, negb (0.7 <? x)%float) chance) as Hneg.
  { unfold gt_then_lt, lt_bool, gt, broadcast. rewrite map_map.
    apply map_ext. intros [i x]. simpl. by destruct (0.7 <? x)%float. }
  split_and!; [done | by rewrite Hneg, index_broadcast |].
  rewrite Hneg. unfold gt_and_lt, gt, lt. rewrite and_broadcast.
  unfold broadcast. clear Hneg. induction chance as [| [i x] chance IH].
  - split; [constructor | done].
  - rewrite Forall_cons. simpl. rewrite <- IH. clear IH. split.
    + intros [= Hx Hrest]. split; [| by f_equal].
      destruct (0.7 <? x)%float, (x <? 0.9)%float; done.
    + intros [[-> ->] [= ->]]. done.
Qed.

(** ** [where] followed by [dropna] *)

Lemma blank_dropped (row : list float) :
  row ≠ [] → forallb (λ x, negb (is_nan x)) (blank row) = false.
Proof. by destruct row. Qed.

(** X21: over one index and rows that have a cell,
    [df.where(mask).dropna()] is [df[mask].dropna()]: the rows the mask
    accepts that have no NaN; it is [df[mask]] when [df] has no NaN. *)
Theorem where_dropna_is_indexing (df : DataFrame) (mask : Series bool) :
  index (rows df) = index mask →
  Forall (λ r : Z * list float, r.2 ≠ []) (rows df) →
  (dropna <$> where_ df mask) = (dropna <$> getitem_mask df mask)
  ∧ (Forall (λ r : Z * list float, Forall (λ x, is_nan x = false) r.2) (rows df) →
     (dropna <$> where_ df mask) = getitem_mask df mask).
Proof.
  intros Hidx Hwide. unfold where_, getitem_mask, where_rows.
  rewrite (loc_selected _ _ Hidx), (decide_True _ _ Hidx). simpl. unfold dropna. simpl.
  assert (∀ x : list (Z * list float), index x = index mask →
            Forall (λ r : Z * list float, r.2 ≠ []) x →
            List.filter (λ r : Z * list float, forallb (λ x, negb (is_nan x)) r.2)
              (zip_with (λ (r : Z * list float) (c : Z * bool),
                           if c.2 then r else (r.1, blank r.2)) x mask)
            = List.filter (λ r : Z * list float, forallb (λ x, negb (is_nan x)) r.2)
                (selected x mask)) as Hrows.
  { clear. intros x Hidx. revert x mask Hidx. apply (same_index_ind (λ x mask, _ → _ = _)).
    - done.
    - intros i a b x mask _ IH [Ha Hx]%Forall_cons. rewrite selected_cons. simpl in *.
      destruct b; simpl.
      + by rewrite IH.
      + rewrite blank_dropped by done. by apply IH. }
  split.
  - by rewrite Hrows.
  - intros Hfull. rewrite Hrows by done. do 2 f_equal.
    assert (∀ l : list (Z * list float),
              Forall (λ r : Z * list float, Forall (λ x, is_nan x = false) r.2) l →
              List.filter (λ r : Z * list float, forallb (λ x, negb (is_nan x)) r.2) l = l)
      as Hkeep.
    { induction 1 as [| r l Hr _ IH]; simpl; [done |].
      assert (forallb (λ x, negb (is_nan x)) r.2 = true) as ->; [| by rewrite IH].
      apply forallb_forall. intros x Hx%list_elem_of_In.
      rewrite Forall_forall in Hr. by rewrite (Hr x Hx). }
    apply Hkeep. rewrite Forall_forall in Hfull |- *. intros r Hr. apply Hfull.
    eapply elem_of_sublist; [exact Hr |]. by apply selected_sublist.
Qed.

Lemma where_dropna_is_indexing_witness :
  (dropna <$> where_ df4 [(1, false); (2, true); (3, true); (4, true)])
  = getitem_mask df4 [(1, false); (2, true); (3, true); (4, true)].
Proof.
  apply (where_dropna_is_indexing df4 [(1, false); (2, true); (3, true); (4, true)]).
  - reflexivity.
  - repeat constructor; done.
  - repeat constructor.
Defined.

(** ** Projecting a list of columns *)




(** ** Cleaning the column names *)

Lemma lower_lower c : lower (lower c) = lower c.
Proof. by destruct c as [[] [] [] [] [] [] [] []]. Qed.

Lemma is_space_lower c : is_space (lower c) = is_space c.
Proof. by destruct c as [[] [] [] [] [] [] [] []]. Qed.

Lemma lstrip_lower s : lstrip (lower <$> s) = lower <$> lstrip s.
Proof.
  induction s as [| c s IH]; [done |]. cbn [fmap list_fmap lstrip].
  rewrite is_space_lower. by destruct (is_space c).
Qed.

Lemma fmap_rev {A B} (f : A → B) (l : list A) : f <$> rev l = rev (f <$> l).
Proof.
  induction l as [| a l IH]; [done |]. cbn [rev fmap list_fmap].
  rewrite fmap_app. by rewrite IH.
Qed.

Lemma strip_lower s : strip (lower <$> s) = lower <$> strip s.
Proof.
  unfold strip. by rewrite lstrip_lower, <- fmap_rev, lstrip_lower, <- fmap_rev.
Qed.

Lemma lstrip_first s : no_space_first (lstrip s).
Proof.
  induction s as [| c s IH]; [done |]. simpl.
  by destruct (is_space c) eqn:Hc.
Qed.

Lemma lstrip_fixed s : no_space_first s → lstrip s = s.
Proof. destruct s as [| c s]; [done |]. simpl. by intros ->. Qed.

Lemma lstrip_suffix s : ∃ p, s = p ++ lstrip s.
Proof.
  induction s as [| c s [p IH]]; [by exists [] |]. simpl.
  destruct (is_space c); [| by exists []].
  exists (c :: p). simpl. by rewrite <- IH.
Qed.

Lemma strip_last s : no_space_first (rev (strip s)).
Proof. unfold strip. rewrite rev_involutive. apply lstrip_first. Qed.

Lemma strip_first s : no_space_first (strip s).
Proof.
  unfold strip. pose proof (lstrip_first s) as Ht.
  destruct (lstrip_suffix (rev (lstrip s))) as [p Hp].
  apply (f_equal (@rev ascii)) in Hp.
  rewrite rev_involutive, rev_app_distr in Hp.
  destruct (rev (lstrip (rev (lstrip s)))) as [| a m]; [done |].
  rewrite Hp in Ht. done.
Qed.

Lemma strip_strip s : strip (strip s) = strip s.
Proof.
  unfold strip at 1.
  rewrite (lstrip_fixed (strip s)) by apply strip_first.
  rewrite (lstrip_fixed (rev (strip s))) by apply strip_last.
  apply rev_involutive.
Qed.

Lemma list_find_injective (f : string → string) (l : list string) (c : string) :
  c ∈ l → NoDup (f <$> l) →
  fst <$> list_find (λ x, x = f c) (f <$> l) = fst <$> list_find (λ x, x = c) l.
Proof.
  induction l as [| a l IH]; [by intros ?%elem_of_nil |].
  intros Hc Hnd. cbn [fmap list_fmap] in Hnd. apply NoDup_cons in Hnd as [Ha Hnd].
  cbn [fmap list_fmap list_find].
  destruct (decide (a = c)) as [-> | Hne].
  - by rewrite decide_True.
  - apply elem_of_cons in Hc as [-> | Hc]; [done |].
    rewrite decide_False.
    + specialize (IH Hc Hnd).
      destruct (list_find _ (f <$> l)) as [[j x] |], (list_find _ l) as [[j' x'] |];
        simpl in *; congruence.
    + intros Heq. apply Ha. rewrite Heq. apply list_elem_of_fmap. by exists c.
Qed.

(** X23: the cell that cleans the column names changes nothing when
    run again and leaves the rows alone; a cleaned name has no capital
    letter and neither starts nor ends with white space; every column is
    found under its cleaned name and, when no two cleaned names are the
    same, holds there what it held. *)
Theorem cleaned_column_names (df : DataFrame) :
  clean_columns (clean_columns df) = clean_columns df
  ∧ rows (clean_columns df) = rows df
  ∧ length (columns (clean_columns df)) = length (columns df)
  ∧ (∀ c, c ∈ columns (clean_columns df) →
       str_strip c = c ∧ str_lower c = c
       ∧ no_space_first (chars c) ∧ no_space_first (rev (chars c)))
  ∧ (∀ c, c ∈ columns df →
       returns (getitem_col (clean_columns df) (str_strip (str_lower c))))
  ∧ (NoDup (columns (clean_columns df)) →
     ∀ c, c ∈ columns df →
       getitem_col (clean_columns df) (str_strip (str_lower c)) = getitem_col df c).
Proof.
  assert (∀ x, str_lower (str_strip (str_lower x)) = str_strip (str_lower x))
    as Hlow.
  { intros x. unfold str_strip, str_lower. rewrite !chars_text. f_equal.
    rewrite <- strip_lower. f_equal. rewrite <- list_fmap_compose.
    apply list_fmap_ext. intros _ c _. apply lower_lower. }
  assert (∀ x, str_strip (str_strip x) = str_strip x) as Hstrip.
  { intros x. unfold str_strip. by rewrite chars_text, strip_strip. }
  split_and!.
  - unfold clean_columns. simpl. f_equal. rewrite <- list_fmap_compose.
    apply list_fmap_ext. intros _ x _. simpl. by rewrite Hlow, Hstrip.
  - done.
  - simpl. by rewrite length_fmap.
  - intros c Hc. simpl in Hc. apply list_elem_of_fmap in Hc as (x & -> & _).
    split_and!.
    + apply Hstrip.
    + apply Hlow.
    + unfold str_strip. rewrite chars_text. apply strip_first.
    + unfold str_strip. rewrite chars_text. apply strip_last.
  - intros c Hc. unfold getitem_col.
    destruct (list_find _ _) as [[j x] |] eqn:Hf; [by eexists |].
    apply list_find_None in Hf. rewrite Forall_forall in Hf.
    destruct (Hf (str_strip (str_lower c))); [| done].
    simpl. apply list_elem_of_fmap. by exists c.
  - intros Hnd c Hc. unfold getitem_col. simpl in *.
    pose proof (list_find_injective (λ x, str_strip (str_lower x)) _ c Hc Hnd) as Hj.
    simpl in Hj.
    destruct (list_find _ (columns df)) as [[j' x'] |] eqn:Hf.
    + destruct (list_find _ (_ <$> _)) as [[j x] |]; simpl in Hj; [| done].
      by injection Hj as ->.
    + apply list_find_None in Hf. rewrite Forall_forall in Hf. by destruct (Hf c).
Qed.

Lemma cleaned_column_names_witness :
  getitem_col (clean_columns cleaned_example) "chance of admit"
  = Ok [(1, 0.92%float); (2, 0.76%float)].
Proof.
  destruct (cleaned_column_names cleaned_example) as (_ & _ & _ & _ & _ & H).
  refine (eq_trans (H _ "Chance of Admit "%string _) _).
  - apply (bool_decide_unpack _). by vm_compute.
  - apply (bool_decide_unpack _). by vm_compute.
  - reflexivity.
Defined.

(** ** Splitting the name of a president *)

Lemma set_key_same {V} (d : list (string * V)) k v :
  lookup_key d k = Ok v → set_key d k v = d.
Proof.
  induction d as [| [k' v'] d IH]; simpl; [done |].
  destruct (decide (k' = k)) as [-> | Hne].
  - by intros [= ->].
  - intros H. by rewrite IH.
Qed.

Lemma words_return (s : string) :
  ∃ first last, first_word s = Ok first ∧ last_word s = Ok last.
Proof.
  unfold first_word, last_word, split. simpl.
  assert ([" "%char] ≠ []) as Hne by done.
  destruct (split_from_head [" "%char] (chars s) []) as (q & t & Hq & _).
  destruct (split_from_last _ Hne (chars s) []) as (u & l & Hl & _).
  exists (text q), (text l). split.
  - unfold item. simpl. by destruct (split_from _ _ _ _); simplify_eq/=.
  - apply item_last. by rewrite fmap_last, Hl.
Qed.

(** X24: on a row of distinct labels that has a [President],
    [splitname] returns the row with [First] and [Last] set to the first
    and the last word of the name and every other entry as it was, its
    labels still distinct, and applied once more changes nothing; on a
    row without a [President] it raises [KeyError]. *)
Theorem splitname_first_and_last (row : row_series) :
  NoDup (keys row) →
  (∀ president, lookup_key row "President" = Ok president →
     ∃ first last row',
       first_word president = Ok first ∧ last_word president = Ok last
       ∧ splitname row = Ok row'
       ∧ NoDup (keys row')
       ∧ lookup_key row' "First" = Ok first
       ∧ lookup_key row' "Last" = Ok last
       ∧ (∀ k, k ≠ "First"%string → k ≠ "Last"%string →
            lookup_key row' k = lookup_key row k)
       ∧ splitname row' = Ok row')
  ∧ ("President"%string ∉ keys row → splitname row = Raise (KeyError "President")).
Proof.
  intros Hnd. split.
  - intros president Hp.
    destruct (words_return president) as (first & last & Hf & Hl).
    exists first, last, (set_key (set_key row "First" first) "Last" last).
    assert (∀ r, lookup_key r "President" = Ok president →
              splitname r = Ok (set_key (set_key r "First" first) "Last" last))
      as Hsplit.
    { intros r Hr. unfold splitname. rewrite Hr. cbn [mbind result_bind].
      unfold first_word in Hf. unfold last_word in Hl.
      destruct (split president " ") as [words |] eqn:Hw; [| done].
      cbn [mbind result_bind] in *. rewrite Hf. cbn [mbind result_bind].
      rewrite lookup_set_key_ne, Hr by done. cbn [mbind result_bind].
      rewrite Hw. cbn [mbind result_bind]. by rewrite Hl. }
    split_and!; try done.
    + by apply Hsplit.
    + by do 2 apply set_key_NoDup.
    + rewrite lookup_set_key_ne by done. apply lookup_set_key.
    + apply lookup_set_key.
    + intros k H1 H2. by rewrite !lookup_set_key_ne.
    + rewrite Hsplit.
      * f_equal. rewrite (set_key_same (set_key (set_key row _ _) _ _) "First" first).
        -- apply set_key_same, lookup_set_key.
        -- rewrite lookup_set_key_ne by done. apply lookup_set_key.
      * by rewrite !lookup_set_key_ne.
  - intros Hk. unfold splitname. by rewrite lookup_key_None.
Qed.

Lemma splitname_first_and_last_witness :
  ∃ first last row',
    first_word "John Quincy Adams" = Ok first
    ∧ last_word "John Quincy Adams" = Ok last
    ∧ splitname [("#", "6"); ("President", "John Quincy Adams")]%string = Ok row'
    ∧ NoDup (keys row')
    ∧ lookup_key row' "First" = Ok first
    ∧ lookup_key row' "Last" = Ok last
    ∧ (∀ k, k ≠ "First"%string → k ≠ "Last"%string →
         lookup_key row' k
         = lookup_key [("#", "6"); ("President", "John Quincy Adams")]%string k)
    ∧ splitname row' = Ok row'.
Proof.
  apply (splitname_first_and_last
           [("#", "6"); ("President", "John Quincy Adams")]%string).
  - apply (bool_decide_unpack _). by vm_compute.
  - reflexivity.
Defined.

(** ** The sales statement of any record *)



